(** * Crossword CSP solver ([3.optimization/crossword/generate.py])

    A shallow embedding of [CrosswordCreator] and the properties of its
    consistency engine, its backtracking search and its rendering of an
    assignment.

    Conventions of the embedding.
    - A Python [dict] keeps its keys in insertion order and [.items()] walks
      them in that order: dictionaries ([self.domains], an assignment) are
      association lists with [dict_get] / [dict_set].
    - A Python [set] is a list without repetitions; the order of the list is
      the order in which the interpreter iterates over the set.  Removing
      elements keeps the remaining ones in their relative order.  Statements
      below quantify over every such listing unless said otherwise.
    - Python exceptions and the state they leave behind are explicit: a
      method of [CrosswordCreator] is a function from the domain store to
      an [outcome] and the store after the call.
    - [while] loops and recursion carry a step budget computed from the
      input; [OutOfFuel] is a separate outcome, shown never to occur. *)

From Stdlib Require Import List String Ascii Arith Bool ZArith Lia Permutation
  Sorted.
Import ListNotations.
Local Open Scope list_scope.

(** ** Python values *)

Inductive exn := KeyError | IndexError | TypeError.

Inductive outcome (A : Type) : Type :=
| Ok (a : A)
| Raise (e : exn)
| OutOfFuel.
Arguments Ok {A} a.
Arguments Raise {A} e.
Arguments OutOfFuel {A}.

Definition obind {A B} (o : outcome A) (k : A -> outcome B) : outcome B :=
  match o with
  | Ok a => k a
  | Raise e => Raise e
  | OutOfFuel => OutOfFuel
  end.

(** [word[k]] for a non-negative index. *)
Definition index (word : string) (k : nat) : outcome ascii :=
  match String.get k word with
  | Some c => Ok c
  | None => Raise IndexError
  end.

(** ** Slots ([Variable] of the [crossword] module) *)

Inductive Direction := ACROSS | DOWN.

Record variable := Var {
  var_i : nat;
  var_j : nat;
  var_direction : Direction;
  var_length : nat
}.

Definition direction_eqb (a b : Direction) : bool :=
  match a, b with
  | ACROSS, ACROSS | DOWN, DOWN => true
  | _, _ => false
  end.

(** [Variable.__eq__] *)
Definition variable_eqb (x y : variable) : bool :=
  (var_i x =? var_i y) && (var_j x =? var_j y)
  && direction_eqb (var_direction x) (var_direction y)
  && (var_length x =? var_length y).

(** ** Sets of hashable values, as duplicate-free lists *)

Section PySet.
Context {A : Type} (eqb : A -> A -> bool).

Definition set_mem (a : A) (s : list A) : bool := existsb (eqb a) s.

(** [s - t] *)
Definition set_diff (s t : list A) : list A :=
  filter (fun a => negb (set_mem a t)) s.

(** [s.remove(a)]: the caller has checked membership. *)
Definition set_discard (a : A) (s : list A) : list A :=
  filter (fun b => negb (eqb a b)) s.
End PySet.

(** ** Dictionaries keyed by slots *)

Section PyDict.
Context {V : Type}.

Definition dict := list (variable * V).

Fixpoint dict_get (k : variable) (d : dict) : option V :=
  match d with
  | [] => None
  | (k', v) :: r => if variable_eqb k k' then Some v else dict_get k r
  end.

(** [d[k] = v]: replaces in place, a new key goes last. *)
Fixpoint dict_set (k : variable) (v : V) (d : dict) : dict :=
  match d with
  | [] => [(k, v)]
  | (k', v') :: r =>
      if variable_eqb k k' then (k', v) :: r else (k', v') :: dict_set k v r
  end.

Definition dict_keys (d : dict) : list variable := map fst d.

(** [k in d] *)
Definition dict_mem (k : variable) (d : dict) : bool :=
  match dict_get k d with Some _ => true | None => false end.
End PyDict.
Arguments dict V : clear implicits.

Definition domains := dict (list string).
Definition assignment := dict string.

(** ** The puzzle ([Crossword] of the [crossword] module)

    generate.py imports the module; the solver reads three attributes of
    it, taken here as they come, and calls one method.  [overlaps] stands
    for the table [crossword.overlaps[x, y]], [None] where the two slots
    share no cell; the solver reads it at pairs of distinct slots only. *)

Record Crossword := {
  variables : list variable;
  words : list string;
  overlaps : variable -> variable -> option (nat * nat)
}.

(** Modelled from the spec: [Crossword.neighbors] is missing; "neighbors(slot):
    set of all slots overlapping a given slot". *)
Definition neighbors (cw : Crossword) (var : variable) : list variable :=
  filter (fun v => negb (variable_eqb v var)
                   && match overlaps cw v var with Some _ => true | None => false end)
         (variables cw).

(** ** Methods as state transformers over [self.domains] *)

Definition M (A : Type) : Type := domains -> outcome A * domains.

Definition ret {A} (a : A) : M A := fun d => (Ok a, d).

Definition bind {A B} (m : M A) (k : A -> M B) : M B :=
  fun d =>
    match m d with
    | (Ok a, d') => k a d'
    | (Raise e, d') => (Raise e, d')
    | (OutOfFuel, d') => (OutOfFuel, d')
    end.

(** A computation that only reads the store. *)
Definition reads {A} (f : domains -> outcome A) : M A := fun d => (f d, d).

Definition out_of_fuel {A} : M A := fun d => (OutOfFuel, d).

Declare Scope py_scope.
Delimit Scope py_scope with py.
Notation "x <- m ;; k" := (bind m (fun x => k))
  (at level 100, m at next level, right associativity) : py_scope.
Notation "m ;;; k" := (bind m (fun _ => k))
  (at level 100, right associativity) : py_scope.
Notation "x <~ o ;; k" := (obind o (fun x => k))
  (at level 100, o at next level, right associativity) : py_scope.
Local Open Scope py_scope.

(** [self.domains[var]] *)
Definition domain_of (d : domains) (var : variable) : outcome (list string) :=
  match dict_get var d with
  | Some s => Ok s
  | None => Raise KeyError
  end.

(** [for a in l: body(a)] *)
Fixpoint for_each {A} (l : list A) (body : A -> M unit) : M unit :=
  match l with
  | [] => ret tt
  | a :: r => body a ;;; for_each r body
  end.

Definition is_empty {A} (l : list A) : bool :=
  match l with [] => true | _ => false end.

Definition total_size (d : domains) : nat :=
  list_sum (map (fun e => List.length (snd e)) d).

Section Creator.
Variable cw : Crossword.

(** [__init__]: every slot starts with its own copy of the word set. *)
Definition init_domains : domains :=
  map (fun var => (var, words cw)) (variables cw).

(** [self.domains[var].remove(word)] *)
Definition domain_remove (var : variable) (word : string) : M unit :=
  fun d =>
    match dict_get var d with
    | None => (Raise KeyError, d)
    | Some s =>
        if set_mem String.eqb word s
        then (Ok tt, dict_set var (set_discard String.eqb word s) d)
        else (Raise KeyError, d)
    end.

(** The inner loop of [enforce_node_consistency], over the words [ws]. *)
Definition remove_misfits (var : variable) (ws : list string) : M unit :=
  for_each ws (fun word =>
    if negb (String.length word =? var_length var)
    then domain_remove var word
    else ret tt).

Definition enforce_node_consistency : M unit :=
  for_each (variables cw) (fun var => remove_misfits var (words cw)).

(** [any(word_x[i] == word_y[j] for word_y in dy)] *)
Fixpoint any_agree (i j : nat) (word_x : string) (dy : list string)
  : outcome bool :=
  match dy with
  | [] => Ok false
  | word_y :: r =>
      cx <~ index word_x i ;;
      cy <~ index word_y j ;;
      if Ascii.eqb cx cy then Ok true else any_agree i j word_x r
  end.

(** The loop of [revise] that fills [words_remove]. *)
Fixpoint words_remove (d : domains) (i j : nat) (y : variable)
    (dx : list string) : outcome (list string) :=
  match dx with
  | [] => Ok []
  | word_x :: r =>
      dy <~ domain_of d y ;;
      supported <~ any_agree i j word_x dy ;;
      rest <~ words_remove d i j y r ;;
      Ok (if supported then rest else word_x :: rest)
  end.

Definition revise (x y : variable) : M bool :=
  match overlaps cw x y with
  | Some (i, j) =>
      fun d =>
        match (dx <~ domain_of d x ;;
               rm <~ words_remove d i j y dx ;;
               Ok (dx, rm)) with
        | Ok (dx, rm) =>
            if negb (is_empty rm)
            then (Ok true, dict_set x (set_diff String.eqb dx rm) d)
            else (Ok false, d)
        | Raise e => (Raise e, d)
        | OutOfFuel => (OutOfFuel, d)
        end
  | None => ret false
  end.

(** [((x, y) for x in variables for y in neighbors(x))] *)
Definition all_arcs : list (variable * variable) :=
  flat_map (fun x => map (fun y => (x, y)) (neighbors cw x)) (variables cw).

(** The [while csp_queue:] loop. *)
Fixpoint ac3_loop (fuel : nat) (csp_queue : list (variable * variable))
  : M bool :=
  match csp_queue with
  | [] => ret true
  | (x, y) :: rest =>
      match fuel with
      | 0 => out_of_fuel
      | S fuel' =>
          revised <- revise x y ;;
          if revised then
            dx <- reads (fun d => domain_of d x) ;;
            if is_empty dx then ret false
            else ac3_loop fuel'
                   (rest ++ map (fun z => (z, x))
                                (set_diff variable_eqb (neighbors cw x) [y]))
          else ac3_loop fuel' rest
      end
  end.

(** Every iteration either shortens the queue or removes a word and adds
    at most one arc per slot. *)
Definition ac3_fuel (d : domains) (csp_queue : list (variable * variable))
  : nat :=
  List.length csp_queue + total_size d * S (List.length (variables cw)).

Definition ac3 (arcs : option (list (variable * variable))) : M bool :=
  fun d =>
    let csp_queue := match arcs with Some l => l | None => all_arcs end in
    ac3_loop (ac3_fuel d csp_queue) csp_queue d.

Definition assignment_complete (a : assignment) : bool :=
  forallb (fun var =>
             match dict_get var a with
             | None => false
             | Some word => negb (String.length word =? 0)
             end)
          (variables cw).

(** The inner loop of [consistent], over the neighbours of [var_x]. *)
Fixpoint agrees_with_neighbors (a : assignment) (var_x : variable)
    (word_x : string) (ns : list variable) : outcome bool :=
  match ns with
  | [] => Ok true
  | var_y :: r =>
      match dict_get var_y a with
      | Some word_y =>
          match overlaps cw var_x var_y with
          | Some (i, j) =>
              cx <~ index word_x i ;;
              cy <~ index word_y j ;;
              if negb (Ascii.eqb cx cy) then Ok false
              else agrees_with_neighbors a var_x word_x r
          | None => Raise TypeError
          end
      | None => agrees_with_neighbors a var_x word_x r
      end
  end.

Fixpoint consistent_items (a : assignment) (items : list (variable * string))
  : outcome bool :=
  match items with
  | [] => Ok true
  | (var_x, word_x) :: r =>
      if negb (var_length var_x =? String.length word_x) then Ok false
      else
        ok <~ agrees_with_neighbors a var_x word_x (neighbors cw var_x) ;;
        if ok then consistent_items a r else Ok false
  end.

Definition consistent (a : assignment) : outcome bool :=
  consistent_items a a.

(** How many words of [dn] differ from [word] at the shared cell. *)
Fixpoint count_differ (i j : nat) (word : string) (dn : list string)
  : outcome nat :=
  match dn with
  | [] => Ok 0
  | word_n :: r =>
      c <~ index word i ;;
      cn <~ index word_n j ;;
      k <~ count_differ i j word r ;;
      Ok (if negb (Ascii.eqb c cn) then S k else k)
  end.

Fixpoint ruled_out (d : domains) (var : variable) (word : string)
    (ns : list variable) : outcome nat :=
  match ns with
  | [] => Ok 0
  | n :: r =>
      match overlaps cw var n with
      | Some (i, j) =>
          dn <~ domain_of d n ;;
          k <~ count_differ i j word dn ;;
          k' <~ ruled_out d var word r ;;
          Ok (k + k')
      | None => Raise TypeError
      end
  end.

Fixpoint value_heuristic (d : domains) (var : variable) (a : assignment)
    (dv : list string) : outcome (list (string * nat)) :=
  match dv with
  | [] => Ok []
  | word :: r =>
      k <~ ruled_out d var word
             (set_diff variable_eqb (neighbors cw var) (dict_keys a)) ;;
      rest <~ value_heuristic d var a r ;;
      Ok ((word, k) :: rest)
  end.

(** [sorted(..., key=lambda x: x[1])] is stable. *)
Fixpoint insert_by_count (p : string * nat) (l : list (string * nat))
  : list (string * nat) :=
  match l with
  | [] => [p]
  | q :: r => if snd p <=? snd q then p :: q :: r
              else q :: insert_by_count p r
  end.

Definition sorted_by_count (l : list (string * nat)) : list (string * nat) :=
  fold_right insert_by_count [] l.

(** [var] is [None] when [select_unassigned_variable] found nothing:
    [self.domains[None]] is a [KeyError]. *)
Definition order_domain_values (var : option variable) (a : assignment)
    (d : domains) : outcome (list string) :=
  match var with
  | None => Raise KeyError
  | Some var =>
      dv <~ domain_of d var ;;
      h <~ value_heuristic d var a dv ;;
      Ok (map fst (sorted_by_count h))
  end.

(** The state of the selection loop; [min_num_var = None] is
    [float('inf')]. *)
Record selection := {
  unassigned_var : option variable;
  min_num_var : option nat;
  max_degree : Z
}.

Definition selection_step (d : domains) (s : selection) (var : variable)
  : outcome selection :=
  dv <~ domain_of d var ;;
  let num_var := List.length dv in
  let degree := Z.of_nat (List.length (neighbors cw var)) in
  let better :=
    match min_num_var s with
    | None => true
    | Some m => (num_var <? m)
                || ((num_var =? m) && (max_degree s <? degree)%Z)
    end in
  Ok (if better
      then {| unassigned_var := Some var;
              min_num_var := Some num_var;
              max_degree := degree |}
      else s).

Fixpoint selection_loop (d : domains) (s : selection) (vars : list variable)
  : outcome selection :=
  match vars with
  | [] => Ok s
  | var :: r => s' <~ selection_step d s var ;; selection_loop d s' r
  end.

Definition select_unassigned_variable (a : assignment) (d : domains)
  : outcome (option variable) :=
  s <~ selection_loop d
         {| unassigned_var := None; min_num_var := None; max_degree := (-1)%Z |}
         (set_diff variable_eqb (variables cw) (dict_keys a)) ;;
  Ok (unassigned_var s).

(** [result is not False]: a dictionary and [None] both differ from
    [False]. *)
Definition is_not_False (result : option assignment) : bool := true.

(** The [for value in ...] loop of [backtrack]; [recur] is the recursive
    call.  [del new_assignment[var]] acts on a copy that is dropped. *)
Fixpoint try_values (recur : assignment -> M (option assignment))
    (var : variable) (a : assignment) (values : list string)
  : M (option assignment) :=
  match values with
  | [] => ret None
  | value :: rest =>
      let new_assignment := dict_set var value a in
      ok <- reads (fun _ => consistent new_assignment) ;;
      if ok then
        let arcs := map (fun n => (var, n)) (neighbors cw var) in
        inference <- ac3 (Some arcs) ;;
        if inference then
          result <- recur new_assignment ;;
          if is_not_False result then ret result
          else try_values recur var a rest
        else try_values recur var a rest
      else try_values recur var a rest
  end.

Fixpoint backtrack_rec (fuel : nat) (a : assignment) : M (option assignment) :=
  match fuel with
  | 0 => out_of_fuel
  | S fuel' =>
      if assignment_complete a then ret (Some a)
      else
        var <- reads (select_unassigned_variable a) ;;
        values <- reads (order_domain_values var a) ;;
        match var with
        | Some var => try_values (backtrack_rec fuel') var a values
        | None => reads (fun _ => Raise KeyError)
        end
  end.

(** Each level of the recursion assigns one more slot. *)
Definition backtrack (a : assignment) : M (option assignment) :=
  backtrack_rec (S (List.length (variables cw))) a.

Definition solve : M (option assignment) :=
  enforce_node_consistency ;;;
  _ <- ac3 None ;;
  backtrack [].

(** [CrosswordCreator(crossword).solve()] *)
Definition run_solve : outcome (option assignment) * domains :=
  solve init_domains.
End Creator.

(** ** Well-formed puzzles

    What the solver takes for granted about the [crossword] module: its sets
    hold no repetition, a slot has at least one cell, and an overlap is
    recorded for both orders of a pair with indices inside the two slots. *)

Fixpoint nodupb {A} (eqb : A -> A -> bool) (l : list A) : bool :=
  match l with
  | [] => true
  | a :: r => negb (set_mem eqb a r) && nodupb eqb r
  end.

Definition overlap_ok (cw : Crossword) (x y : variable) : bool :=
  match overlaps cw x y with
  | None => true
  | Some (i, j) =>
      (i <? var_length x) && (j <? var_length y)
      && match overlaps cw y x with Some _ => true | None => false end
  end.

Definition well_formed (cw : Crossword) : bool :=
  nodupb variable_eqb (variables cw)
  && nodupb String.eqb (words cw)
  && forallb (fun x => 0 <? var_length x) (variables cw)
  && forallb (fun x => forallb (overlap_ok cw x) (variables cw)) (variables cw).

(** The cells of a slot, as [letter_grid] walks them. *)
Definition cells (v : variable) : list (nat * nat) :=
  map (fun k =>
         (var_i v + match var_direction v with DOWN => k | ACROSS => 0 end,
          var_j v + match var_direction v with ACROSS => k | DOWN => 0 end))
      (seq 0 (var_length v)).

Definition cell_eqb (p q : nat * nat) : bool :=
  (fst p =? fst q) && (snd p =? snd q).

Fixpoint position (c : nat * nat) (l : list (nat * nat)) : option nat :=
  match l with
  | [] => None
  | c' :: r => if cell_eqb c c' then Some 0
               else option_map S (position c r)
  end.

(** Modelled from the spec: the overlap table of the [crossword] module is
    missing; "for every unordered pair of slots that share exactly one grid
    cell, records the index-in-each-slot of that shared cell; pairs with no
    shared cell are absent". *)
Definition grid_overlaps (x y : variable) : option (nat * nat) :=
  if variable_eqb x y then None
  else
    match filter (fun c => set_mem cell_eqb c (cells y)) (cells x) with
    | [] => None
    | c :: _ =>
        match position c (cells x), position c (cells y) with
        | Some i, Some j => Some (i, j)
        | _, _ => None
        end
    end.

Definition grid_crossword (vars : list variable) (ws : list string) : Crossword :=
  {| variables := vars; words := ws; overlaps := grid_overlaps |}.

(** ** Puzzles used below *)

Module Examples.
Local Open Scope string_scope.

(** Two slots of three cells, the last cell of [slot_A] being the first
    of [slot_B]. *)
Definition slot_A : variable := Var 0 0 ACROSS 3.
Definition slot_B : variable := Var 0 2 DOWN 3.

Definition cat_top (vars : list variable) (ws : list string) : Crossword :=
  grid_crossword vars ws.

Definition cat_dog : Crossword :=
  grid_crossword [slot_A; slot_B] ["cat"; "dog"].

(** One slot across the top row and two slots hanging from its ends:
    the structure file is "___" over "_#_". *)
Definition top : variable := Var 0 0 ACROSS 3.
Definition left : variable := Var 0 0 DOWN 2.
Definition right : variable := Var 0 2 DOWN 2.

Definition arch_words : list string :=
  ["AX"; "BX"; "CX"; "AXB"; "AXC"; "BXA"; "CXA"].

Definition arch : Crossword :=
  grid_crossword [top; left; right] arch_words.

Definition arch_solution : assignment :=
  [(left, "AX"); (top, "AXB"); (right, "BX")].
End Examples.

(** ** Specification vocabulary *)

(** [w[i] == w2[j]], both indices inside their words. *)
Definition letters_agree (i j : nat) (w w2 : string) : Prop :=
  exists c, String.get i w = Some c /\ String.get j w2 = Some c.

(** Some word of [dy] agrees with [w] at the shared cell. *)
Definition has_match (i j : nat) (w : string) (dy : list string) : bool :=
  existsb (fun w2 =>
             match String.get i w, String.get j w2 with
             | Some a, Some b => Ascii.eqb a b
             | _, _ => false
             end) dy.

(** The domain of a slot, empty for a slot the store does not know. *)
Definition domain (d : domains) (x : variable) : list string :=
  match dict_get x d with Some s => s | None => [] end.

(** Every slot of the puzzle has a domain, made of words of its length. *)
Definition node_consistent (cw : Crossword) (d : domains) : Prop :=
  forall x, In x (variables cw) ->
    exists s, dict_get x d = Some s
              /\ forall w, In w s -> String.length w = var_length x.

(** The store [d'] has the slots of [d], each with a sub-domain. *)
Definition shrinks (d d' : domains) : Prop :=
  dict_keys d' = dict_keys d
  /\ forall x s', dict_get x d' = Some s' ->
       exists s, dict_get x d = Some s /\ incl s' s.

(** Every word left for [x] has a partner in the domain of each
    neighbour. *)
Definition arc_consistent (cw : Crossword) (d : domains) : Prop :=
  forall x y i j, In x (variables cw) -> In y (neighbors cw x) ->
    overlaps cw x y = Some (i, j) ->
    forall w, In w (domain d x) -> has_match i j w (domain d y) = true.

(** The run of AC-3 in the words of its description: pop an arc, revise,
    fail on an emptied domain, otherwise queue the arcs into [x] from its
    neighbours other than [y]. *)
Inductive ac3_run (cw : Crossword)
  : list (variable * variable) -> domains -> bool -> domains -> Prop :=
| run_done d :
    ac3_run cw [] d true d
| run_unchanged x y rest d d' b d'' :
    revise cw x y d = (Ok false, d') ->
    ac3_run cw rest d' b d'' ->
    ac3_run cw ((x, y) :: rest) d b d''
| run_emptied x y rest d d' :
    revise cw x y d = (Ok true, d') ->
    dict_get x d' = Some [] ->
    ac3_run cw ((x, y) :: rest) d false d'
| run_requeue x y rest d d' w s b d'' :
    revise cw x y d = (Ok true, d') ->
    dict_get x d' = Some (w :: s) ->
    ac3_run cw
      (rest ++ map (fun z => (z, x))
                   (filter (fun z => negb (variable_eqb z y)) (neighbors cw x)))
      d' b d'' ->
    ac3_run cw ((x, y) :: rest) d b d''.

(** A complete and consistent assignment, in the words of the contract of
    [solve]. *)
Definition solution (cw : Crossword) (a : assignment) : Prop :=
  (forall x, In x (variables cw) ->
     exists w, dict_get x a = Some w /\ String.length w = var_length x)
  /\ (forall x y i j wx wy,
        In x (variables cw) -> In y (variables cw) -> x <> y ->
        overlaps cw x y = Some (i, j) ->
        dict_get x a = Some wx -> dict_get y a = Some wy ->
        letters_agree i j wx wy).

(** Arcs queued after a revision of [(x, y)] that shrank the domain of
    [x]. *)
Definition requeued (cw : Crossword) (x y : variable)
  : list (variable * variable) :=
  map (fun z => (z, x)) (set_diff variable_eqb (neighbors cw x) [y]).

(** The quantity that every iteration of the loop of [ac3] decreases. *)
Definition potential (cw : Crossword) (q : list (variable * variable))
    (d : domains) : nat :=
  List.length q + total_size d * S (List.length (variables cw)).

(** [csp_queue = list(arcs)] *)
Definition initial_queue (cw : Crossword)
    (arcs : option (list (variable * variable))) : list (variable * variable) :=
  match arcs with Some l => l | None => all_arcs cw end.

(** [v] is at least as good a choice as [u]: fewer remaining words or, with
    as many, at least as many neighbours. *)
Definition preferred (cw : Crossword) (d : domains) (v u : variable) : Prop :=
  List.length (domain d v) <= List.length (domain d u)
  /\ (List.length (domain d u) = List.length (domain d v) ->
      List.length (neighbors cw u) <= List.length (neighbors cw v)).

(** What the selection loop knows after the slots [seen]. *)
Definition selection_inv (cw : Crossword) (d : domains) (s : selection)
    (seen : list variable) : Prop :=
  match unassigned_var s with
  | None => seen = [] /\ min_num_var s = None
  | Some v =>
      In v seen
      /\ min_num_var s = Some (List.length (domain d v))
      /\ max_degree s = Z.of_nat (List.length (neighbors cw v))
      /\ forall u, In u seen -> preferred cw d v u
  end.

(** The words of [ws] that fit the slot [var]. *)
Definition fitting (var : variable) (ws : list string) : list string :=
  filter (fun w => String.length w =? var_length var) ws.

(** The store in which every slot has the words of its length. *)
Definition node_filtered (cw : Crossword) : domains :=
  map (fun var => (var, fitting var (words cw))) (variables cw).

(** Every word fits every slot. *)
Definition all_fit (cw : Crossword) : bool :=
  forallb (fun var =>
             forallb (fun w => String.length w =? var_length var) (words cw))
          (variables cw).

(** The slots of an assignment are slots of the puzzle, each with a word of
    its length. *)
Definition typed (cw : Crossword) (a : assignment) : Prop :=
  forall x w, In (x, w) a -> In x (variables cw) /\ String.length w = var_length x.

(** How many slots the assignment leaves out. *)
Definition unassigned_count (cw : Crossword) (a : assignment) : nat :=
  List.length (set_diff variable_eqb (variables cw) (dict_keys a)).

(** What [backtrack] checks before handing an assignment back. *)
Definition checked (cw : Crossword) (a : assignment) : Prop :=
  assignment_complete cw a = true /\ consistent cw a = Ok true.

(** The arc [(x, y)] needs no revision. *)
Definition arc_settled (cw : Crossword) (d : domains) (x y : variable) : Prop :=
  forall i j, overlaps cw x y = Some (i, j) ->
    forall w, In w (domain d x) -> has_match i j w (domain d y) = true.

(** The overlap table gives the same cell for the two orders of a pair. *)
Definition overlaps_symmetric (cw : Crossword) : bool :=
  forallb (fun x =>
    forallb (fun y =>
      match overlaps cw x y with
      | None => true
      | Some (i, j) =>
          match overlaps cw y x with
          | Some (j', i') => (i =? i') && (j =? j')
          | None => false
          end
      end) (variables cw)) (variables cw).

(** Every arc of the puzzle is waiting in the queue or needs no revision. *)
Definition queue_inv (cw : Crossword) (q : list (variable * variable))
    (d : domains) : Prop :=
  forall x y, In x (variables cw) -> In y (neighbors cw x) ->
    In (x, y) q \/ arc_settled cw d x y.



(** ** Every order of iteration

    The order in which the interpreter walks a set is not fixed; the
    examples are checked for each listing of the slot set and of the word
    set. *)

Fixpoint inserts {A} (a : A) (l : list A) : list (list A) :=
  match l with
  | [] => [[a]]
  | b :: r => (a :: b :: r) :: map (cons b) (inserts a r)
  end.

Fixpoint perms {A} (l : list A) : list (list A) :=
  match l with
  | [] => [[]]
  | a :: r => flat_map (inserts a) (perms r)
  end.

Definition is_Ok_true (o : outcome bool) : bool :=
  match o with Ok true => true | _ => false end.

Definition is_Ok_None (o : outcome (option assignment)) : bool :=
  match o with Ok None => true | _ => false end.

(** The arch puzzle listed as [vars] and [ws]: it is well formed, the
    assignment [arch_solution] passes both checks, and [solve] returns
    [None]. *)
Definition arch_misses (vars : list variable) (ws : list string) : bool :=
  let cw := grid_crossword vars ws in
  well_formed cw
  && assignment_complete cw Examples.arch_solution
  && is_Ok_true (consistent cw Examples.arch_solution)
  && is_Ok_None (fst (run_solve cw)).

(** The cat and dog puzzle listed as [vars] and [ws]: [backtrack] fails on
    the node-consistent store and leaves some slot, which had words, with
    none. *)
Definition cat_dog_loses (vars : list variable) (ws : list string) : bool :=
  let cw := grid_crossword vars ws in
  let r := backtrack cw [] (node_filtered cw) in
  is_Ok_None (fst r)
  && existsb (fun x => is_empty (domain (snd r) x)
                       && negb (is_empty (domain (node_filtered cw) x)))
             vars.

(** ** Vocabulary for the ordering of values *)

(** The neighbours of [var] that the assignment leaves out. *)
Definition unassigned_neighbors (cw : Crossword) (var : variable)
    (a : assignment) : list variable :=
  set_diff variable_eqb (neighbors cw var) (dict_keys a).

(** Both words have a letter at the shared cell and the two differ. *)
Definition letters_differ (i j : nat) (w wn : string) : bool :=
  match String.get i w, String.get j wn with
  | Some a, Some b => negb (Ascii.eqb a b)
  | _, _ => false
  end.

(** The words left for the neighbour [n] that the word [w] for [var] would
    rule out. *)
Definition ruled_out_words (cw : Crossword) (d : domains) (var : variable)
    (w : string) (n : variable) : list string :=
  match overlaps cw var n with
  | Some (i, j) => filter (letters_differ i j w) (domain d n)
  | None => []
  end.

(** The neighbours of [var] without a word in the assignment. *)
Definition open_neighbors (cw : Crossword) (var : variable) (a : assignment)
  : list variable :=
  filter (fun n => negb (dict_mem n a)) (neighbors cw var).

(** How many words the word [w] for [var] rules out, over those
    neighbours. *)
Definition ruled_out_count (cw : Crossword) (d : domains) (var : variable)
    (a : assignment) (w : string) : nat :=
  list_sum (map (fun n => List.length (ruled_out_words cw d var w n))
                (open_neighbors cw var a)).

(** ** A puzzle with one slot *)

Module Single.
Local Open Scope string_scope.

Definition slot : variable := Var 0 0 ACROSS 3.

Definition puzzle : Crossword := grid_crossword [slot] ["cat"].
End Single.

(** ** Vocabulary for solutions and stores *)

(** The store still offers every word of the assignment [a]. *)
Definition offers (cw : Crossword) (d : domains) (a : assignment) : Prop :=
  forall x w, In x (variables cw) -> dict_get x a = Some w -> In w (domain d x).

(** The assignment uses words of the list only. *)
Definition from_word_list (cw : Crossword) (a : assignment) : Prop :=
  forall x w, In x (variables cw) -> dict_get x a = Some w -> In w (words cw).

(** The domains hold words of the list only. *)
Definition within_word_list (cw : Crossword) (d : domains) : Prop :=
  forall x s, dict_get x d = Some s -> incl s (words cw).

(** The entries of an assignment built by the search: distinct slots of
    the puzzle with words of the list. *)
Definition built (cw : Crossword) (a : assignment) : Prop :=
  NoDup (dict_keys a)
  /\ forall x w, In (x, w) a -> In x (variables cw) /\ In w (words cw).

(** ** Rendering: [letter_grid]

    [crossword.height] and [crossword.width] belong to the [crossword]
    module; they are arguments here. *)

Definition grid := list (list (option ascii)).

(** [l[n] = a] for an index inside the list. *)
Fixpoint list_set {A} (l : list A) (n : nat) (a : A) : list A :=
  match l, n with
  | [], _ => []
  | _ :: r, 0 => a :: r
  | b :: r, S n' => b :: list_set r n' a
  end.

(** [letters[i][j] = c] *)
Definition grid_set (letters : grid) (i j : nat) (c : ascii) : outcome grid :=
  match nth_error letters i with
  | None => Raise IndexError
  | Some row =>
      if j <? List.length row
      then Ok (list_set letters i (list_set row j (Some c)))
      else Raise IndexError
  end.

(** The cell of the [k]-th letter of a slot. *)
Definition cell_of (variable : variable) (k : nat) : nat * nat :=
  (var_i variable + match var_direction variable with DOWN => k | ACROSS => 0 end,
   var_j variable + match var_direction variable with ACROSS => k | DOWN => 0 end).

(** [for k in range(len(word)): ... letters[i][j] = word[k]] *)
Fixpoint write_word (variable : variable) (word : string) (ks : list nat)
    (letters : grid) : outcome grid :=
  match ks with
  | [] => Ok letters
  | k :: r =>
      let i := fst (cell_of variable k) in
      let j := snd (cell_of variable k) in
      c <~ index word k ;;
      letters' <~ grid_set letters i j c ;;
      write_word variable word r letters'
  end.

(** [for variable, word in assignment.items(): ...] *)
Fixpoint write_items (items : list (variable * string)) (letters : grid)
  : outcome grid :=
  match items with
  | [] => Ok letters
  | (variable, word) :: r =>
      letters' <~ write_word variable word (seq 0 (String.length word)) letters ;;
      write_items r letters'
  end.

Definition letter_grid (height width : nat) (a : assignment) : outcome grid :=
  write_items a (repeat (repeat None width) height).

(** [letters[i][j]], when the cell is inside the grid. *)
Definition grid_get (letters : grid) (cell : nat * nat) : option (option ascii) :=
  match nth_error letters (fst cell) with
  | Some row => nth_error row (snd cell)
  | None => None
  end.

(** A grid of [height] rows of [width] cells. *)
Definition shape (height width : nat) (letters : grid) : Prop :=
  List.length letters = height
  /\ Forall (fun row => List.length row = width) letters.

(** The writes of [letter_grid], in order: a cell and the letter put
    there. *)
Definition word_writes (variable : variable) (word : string) (ks : list nat)
  : list ((nat * nat) * ascii) :=
  flat_map (fun k => match String.get k word with
                     | Some c => [(cell_of variable k, c)]
                     | None => []
                     end) ks.

Definition item_writes (items : list (variable * string))
  : list ((nat * nat) * ascii) :=
  flat_map (fun p => word_writes (fst p) (snd p)
                       (seq 0 (String.length (snd p)))) items.

Fixpoint write_all (ws : list ((nat * nat) * ascii)) (letters : grid)
  : outcome grid :=
  match ws with
  | [] => Ok letters
  | (cell, c) :: r =>
      letters' <~ grid_set letters (fst cell) (snd cell) c ;;
      write_all r letters'
  end.

(** Some word of the assignment has a letter on the cell. *)
Definition covered (a : assignment) (cell : nat * nat) : Prop :=
  exists x w k, In (x, w) a /\ k < String.length w /\ cell_of x k = cell.

(** Two words that meet on a cell carry the same letter there. *)
Definition words_fit (a : assignment) : Prop :=
  forall x wx y wy k k' c c',
    In (x, wx) a -> In (y, wy) a -> cell_of x k = cell_of y k' ->
    String.get k wx = Some c -> String.get k' wy = Some c' -> c = c'.

(** Every letter of every word falls inside the grid. *)
Definition inside (height width : nat) (a : assignment) : Prop :=
  forall x w k, In (x, w) a -> k < String.length w ->
    fst (cell_of x k) < height /\ snd (cell_of x k) < width.

(** ** Rendering: [print]

    [crossword.structure] belongs to the [crossword] module; it is an
    argument here.  What is written to the terminal is a list of
    characters, the full block being the one that is not ASCII. *)

Inductive printed := Char (c : ascii) | Block.

Definition newline : printed := Char "010"%char.
Definition space : printed := Char " "%char.

(** [structure[i][j]] *)
Definition structure_get (structure : list (list bool)) (cell : nat * nat)
  : option bool :=
  match nth_error structure (fst cell) with
  | Some row => nth_error row (snd cell)
  | None => None
  end.

(** What one turn of the inner loop of [print] writes. *)
Definition print_cell (structure : list (list bool)) (letters : grid)
    (i j : nat) : outcome printed :=
  match structure_get structure (i, j) with
  | None => Raise IndexError
  | Some true =>
      match grid_get letters (i, j) with
      | Some (Some c) => Ok (Char c)
      | Some None => Ok space
      | None => Raise IndexError
      end
  | Some false => Ok Block
  end.

(** [for j in range(width): ...] followed by [print()]; [out] is what the
    terminal shows so far. *)
Fixpoint print_row (structure : list (list bool)) (letters : grid) (i : nat)
    (js : list nat) (out : list printed) : outcome unit * list printed :=
  match js with
  | [] => (Ok tt, out ++ [newline])
  | j :: r =>
      match print_cell structure letters i j with
      | Ok p => print_row structure letters i r (out ++ [p])
      | Raise e => (Raise e, out)
      | OutOfFuel => (OutOfFuel, out)
      end
  end.

Fixpoint print_rows (structure : list (list bool)) (letters : grid)
    (width : nat) (rows : list nat) (out : list printed)
  : outcome unit * list printed :=
  match rows with
  | [] => (Ok tt, out)
  | i :: r =>
      match print_row structure letters i (seq 0 width) out with
      | (Ok _, out') => print_rows structure letters width r out'
      | (Raise e, out') => (Raise e, out')
      | (OutOfFuel, out') => (OutOfFuel, out')
      end
  end.

Definition print (height width : nat) (structure : list (list bool))
    (a : assignment) : outcome unit * list printed :=
  match letter_grid height width a with
  | Ok letters => print_rows structure letters width (seq 0 height) []
  | Raise e => (Raise e, [])
  | OutOfFuel => (OutOfFuel, [])
  end.

(** The structure says, for every cell of the grid, whether it is open. *)
Definition covers_grid (height width : nat) (structure : list (list bool))
  : Prop :=
  forall i j, i < height -> j < width -> structure_get structure (i, j) <> None.

(** The character that stands for a cell. *)
Definition shown (structure : list (list bool)) (letters : grid) (i j : nat)
  : printed :=
  match print_cell structure letters i j with
  | Ok p => p
  | _ => Block
  end.

(** The lines of the picture, each closed by a newline. *)
Definition picture (structure : list (list bool)) (letters : grid)
    (width : nat) (rows : list nat) : list printed :=
  flat_map (fun i => map (shown structure letters i) (seq 0 width) ++ [newline])
           rows.

(** ** Basic facts *)

Lemma variable_eqb_eq x y : variable_eqb x y = true <-> x = y.
Proof.
  destruct x as [a b c n], y as [a' b' c' n']; unfold variable_eqb; simpl.
  rewrite !andb_true_iff, !Nat.eqb_eq. split.
  - intros [[[-> ->] Hc] ->]. destruct c, c'; simpl in Hc; congruence.
  - intros H; inversion H; subst. destruct c'; auto.
Qed.

Lemma variable_eqb_refl x : variable_eqb x x = true.
Proof. now apply variable_eqb_eq. Qed.

Lemma variable_eqb_neq x y : variable_eqb x y = false <-> x <> y.
Proof.
  rewrite <- variable_eqb_eq. destruct (variable_eqb x y); split; congruence.
Qed.

Lemma variable_eqb_sym x y : variable_eqb x y = variable_eqb y x.
Proof.
  destruct (variable_eqb y x) eqn:E.
  - apply variable_eqb_eq in E. subst. apply variable_eqb_refl.
  - apply variable_eqb_neq. apply variable_eqb_neq in E. congruence.
Qed.

Lemma set_mem_var x l : set_mem variable_eqb x l = true <-> In x l.
Proof.
  unfold set_mem. rewrite existsb_exists. split.
  - intros (y & Hy & E). apply variable_eqb_eq in E. now subst.
  - intros H. exists x. split; [assumption | apply variable_eqb_refl].
Qed.

Lemma set_mem_str w l : set_mem String.eqb w l = true <-> In w l.
Proof.
  unfold set_mem. rewrite existsb_exists. split.
  - intros (y & Hy & E). apply String.eqb_eq in E. now subst.
  - intros H. exists w. split; [assumption | apply String.eqb_refl].
Qed.

Lemma set_diff_var_In x s t :
  In x (set_diff variable_eqb s t) <-> In x s /\ ~ In x t.
Proof.
  unfold set_diff. rewrite filter_In, negb_true_iff.
  rewrite <- (set_mem_var x t). destruct (set_mem variable_eqb x t); intuition congruence.
Qed.

Lemma set_diff_str_In w s t :
  In w (set_diff String.eqb s t) <-> In w s /\ ~ In w t.
Proof.
  unfold set_diff. rewrite filter_In, negb_true_iff.
  rewrite <- (set_mem_str w t). destruct (set_mem String.eqb w t); intuition congruence.
Qed.

Lemma nodupb_var l : nodupb variable_eqb l = true -> NoDup l.
Proof.
  induction l as [|a l IH]; simpl; intros H; constructor;
    apply andb_true_iff in H as [H1 H2]; auto.
  apply negb_true_iff in H1. rewrite <- set_mem_var. congruence.
Qed.

Lemma nodupb_str l : nodupb String.eqb l = true -> NoDup l.
Proof.
  induction l as [|a l IH]; simpl; intros H; constructor;
    apply andb_true_iff in H as [H1 H2]; auto.
  apply negb_true_iff in H1. rewrite <- set_mem_str. congruence.
Qed.

Lemma get_in_range w : forall k, k < String.length w ->
  exists c, String.get k w = Some c.
Proof.
  induction w as [|a w IH]; simpl; intros k Hk; [lia|].
  destruct k; [eauto | apply IH; lia].
Qed.

Lemma get_some_lt w : forall k c, String.get k w = Some c -> k < String.length w.
Proof.
  induction w as [|a w IH]; simpl; intros k c H; [discriminate|].
  destruct k; [lia | apply IH in H; lia].
Qed.

Lemma index_in_range w k : k < String.length w ->
  exists c, index w k = Ok c /\ String.get k w = Some c.
Proof.
  intros H. destruct (get_in_range w k H) as [c Hc].
  exists c. unfold index. now rewrite Hc.
Qed.

Lemma has_match_iff i j w dy :
  has_match i j w dy = true <-> exists w2, In w2 dy /\ letters_agree i j w w2.
Proof.
  unfold has_match, letters_agree. rewrite existsb_exists. split.
  - intros (w2 & Hin & H). exists w2. split; [assumption|].
    destruct (String.get i w) as [a|]; [|discriminate].
    destruct (String.get j w2) as [b|]; [|discriminate].
    apply Ascii.eqb_eq in H. subst. eauto.
  - intros (w2 & Hin & c & H1 & H2). exists w2. split; [assumption|].
    rewrite H1, H2. apply Ascii.eqb_refl.
Qed.

(** ** Dictionaries *)

Section DictFacts.
Context {V : Type}.
Implicit Types (d : dict V) (k : variable) (v : V).

Lemma dict_get_set_same k v d : dict_get k (dict_set k v d) = Some v.
Proof.
  induction d as [|[k' v'] d IH]; simpl.
  - now rewrite variable_eqb_refl.
  - destruct (variable_eqb k k') eqn:E; simpl; now rewrite E.
Qed.

Lemma dict_get_set_other k k' v d :
  k' <> k -> dict_get k' (dict_set k v d) = dict_get k' d.
Proof.
  intros N. induction d as [|[k0 v0] d IH]; simpl.
  - apply variable_eqb_neq in N. now rewrite N.
  - destruct (variable_eqb k k0) eqn:E; simpl.
    + apply variable_eqb_eq in E. subst k0.
      apply variable_eqb_neq in N. now rewrite N.
    + now rewrite IH.
Qed.

Lemma dict_keys_set k v v0 d :
  dict_get k d = Some v0 -> dict_keys (dict_set k v d) = dict_keys d.
Proof.
  induction d as [|[k' v'] d IH]; simpl; [discriminate|].
  destruct (variable_eqb k k') eqn:E; simpl; intros H; [reflexivity|].
  f_equal. now apply IH.
Qed.

Lemma dict_keys_set_new k v d :
  dict_get k d = None -> dict_keys (dict_set k v d) = dict_keys d ++ [k].
Proof.
  induction d as [|[k' v'] d IH]; simpl; [reflexivity|].
  destruct (variable_eqb k k') eqn:E; simpl; intros H; [discriminate|].
  f_equal. now apply IH.
Qed.

Lemma dict_get_In_keys k d : dict_get k d <> None <-> In k (dict_keys d).
Proof.
  induction d as [|[k' v'] d IH]; simpl; [tauto|].
  destruct (variable_eqb k k') eqn:E.
  - apply variable_eqb_eq in E. subst. split; [auto | discriminate].
  - apply variable_eqb_neq in E. rewrite IH. intuition congruence.
Qed.

Lemma dict_get_In k v d : dict_get k d = Some v -> In (k, v) d.
Proof.
  induction d as [|[k' v'] d IH]; simpl; [discriminate|].
  destruct (variable_eqb k k') eqn:E; intros H.
  - apply variable_eqb_eq in E. left. congruence.
  - right. auto.
Qed.

Lemma dict_mem_keys k d : dict_mem k d = true <-> In k (dict_keys d).
Proof.
  rewrite <- dict_get_In_keys. unfold dict_mem.
  destruct (dict_get k d); split; congruence.
Qed.
End DictFacts.

Lemma total_size_set x s s' d :
  dict_get x d = Some s ->
  total_size (dict_set x s' d) + List.length s = total_size d + List.length s'.
Proof.
  unfold total_size. induction d as [|[k v] d IH]; simpl; [discriminate|].
  destruct (variable_eqb x k) eqn:E; simpl; intros H.
  - inversion H; subst. lia.
  - specialize (IH H). lia.
Qed.

Lemma shrinks_refl d : shrinks d d.
Proof. split; [reflexivity|]. intros x s H. exists s. split; [assumption | apply incl_refl]. Qed.

Lemma shrinks_trans d1 d2 d3 : shrinks d1 d2 -> shrinks d2 d3 -> shrinks d1 d3.
Proof.
  intros [K1 S1] [K2 S2]. split; [congruence|].
  intros x s3 H3. destruct (S2 _ _ H3) as (s2 & H2 & I2).
  destruct (S1 _ _ H2) as (s1 & H1 & I1).
  exists s1. split; [assumption | eapply incl_tran; eassumption].
Qed.

Lemma shrinks_set x s s' d :
  dict_get x d = Some s -> incl s' s -> shrinks d (dict_set x s' d).
Proof.
  intros H I. split; [eapply dict_keys_set; eassumption|].
  intros z sz Hz. destruct (variable_eqb z x) eqn:E.
  - apply variable_eqb_eq in E. subst z. rewrite dict_get_set_same in Hz.
    inversion Hz; subst. eauto.
  - apply variable_eqb_neq in E. rewrite dict_get_set_other in Hz by assumption.
    exists sz. split; [assumption | apply incl_refl].
Qed.

Lemma shrinks_node_consistent cw d d' :
  shrinks d d' -> node_consistent cw d -> node_consistent cw d'.
Proof.
  intros [K S] N x Hx. destruct (N x Hx) as (s & Hs & L).
  destruct (dict_get x d') as [s'|] eqn:E.
  - exists s'. split; [reflexivity|]. intros w Hw.
    destruct (S _ _ E) as (s0 & H0 & I). rewrite Hs in H0. inversion H0; subst.
    apply L, I, Hw.
  - exfalso. assert (In x (dict_keys d)) as Hk
      by (apply dict_get_In_keys; congruence).
    rewrite <- K in Hk. apply dict_get_In_keys in Hk. congruence.
Qed.

(** ** [revise] *)

Lemma filter_length_lt {A} (f : A -> bool) (l : list A) (a : A) :
  In a l -> f a = false -> List.length (filter f l) < List.length l.
Proof.
  induction l as [|b l IH]; simpl; [tauto|].
  intros [->|Hin] Hf.
  - rewrite Hf. pose proof (filter_length_le f l). lia.
  - specialize (IH Hin Hf). destruct (f b); simpl; lia.
Qed.

Lemma filter_twice {A} (f g : A -> bool) (l : list A) :
  filter f (filter g l) = filter (fun x => f x && g x) l.
Proof.
  induction l as [|a l IH]; simpl; [reflexivity|].
  destruct (g a) eqn:G; simpl.
  - rewrite andb_true_r. destruct (f a); now rewrite IH.
  - now rewrite andb_false_r.
Qed.

Lemma index_fuel w k : index w k <> OutOfFuel.
Proof. unfold index. destruct (String.get k w); discriminate. Qed.

Lemma any_agree_fuel i j w dy : any_agree i j w dy <> OutOfFuel.
Proof.
  induction dy as [|w2 dy IH]; simpl; [discriminate|].
  unfold index. destruct (String.get i w); simpl; [|discriminate].
  destruct (String.get j w2); simpl; [|discriminate].
  destruct (Ascii.eqb a a0); [discriminate | assumption].
Qed.

Lemma any_agree_in_range i j w dy :
  i < String.length w ->
  (forall w2, In w2 dy -> j < String.length w2) ->
  any_agree i j w dy = Ok (has_match i j w dy).
Proof.
  intros Hi. induction dy as [|w2 dy IH]; simpl; intros Hj; [reflexivity|].
  destruct (index_in_range w i Hi) as (c & -> & Hc).
  destruct (index_in_range w2 j (Hj w2 (or_introl eq_refl))) as (c2 & -> & Hc2).
  simpl. rewrite Hc, Hc2.
  destruct (Ascii.eqb c c2); [reflexivity | apply IH; auto].
Qed.

Lemma words_remove_fuel d i j y dx : words_remove d i j y dx <> OutOfFuel.
Proof.
  induction dx as [|w dx IH]; simpl; [discriminate|].
  unfold domain_of. destruct (dict_get y d) as [dy|]; simpl; [|discriminate].
  pose proof (any_agree_fuel i j w dy).
  destruct (any_agree i j w dy); simpl; try congruence.
  destruct (words_remove d i j y dx); simpl; congruence.
Qed.

Lemma words_remove_incl d i j y dx rm :
  words_remove d i j y dx = Ok rm -> incl rm dx.
Proof.
  revert rm. induction dx as [|w dx IH]; simpl; intros rm H.
  - inversion H. apply incl_refl.
  - unfold domain_of in H. destruct (dict_get y d) as [dy|]; simpl in H; [|discriminate].
    destruct (any_agree i j w dy) as [b| |]; simpl in H; try discriminate.
    destruct (words_remove d i j y dx) as [rest| |]; simpl in H; try discriminate.
    inversion H; subst. specialize (IH rest eq_refl).
    destruct b; [apply incl_tl | apply incl_cons; [now left | apply incl_tl]]; assumption.
Qed.

Lemma words_remove_in_range d i j y dx dy :
  (dx <> [] -> dict_get y d = Some dy) ->
  (forall w, In w dx -> i < String.length w) ->
  (forall w2, In w2 dy -> j < String.length w2) ->
  words_remove d i j y dx = Ok (filter (fun w => negb (has_match i j w dy)) dx).
Proof.
  intros Hy Hi Hj. induction dx as [|w dx IH]; simpl; [reflexivity|].
  unfold domain_of. rewrite Hy by discriminate. simpl.
  rewrite any_agree_in_range by auto using in_eq. simpl.
  rewrite IH.
  - simpl. destruct (has_match i j w dy); reflexivity.
  - intros N. apply Hy. discriminate.
  - intros w' H. apply Hi. now right.
Qed.

Section ReviseFacts.
Variable cw : Crossword.

(** The three ways [revise] can end. *)
Lemma revise_cases x y d :
  revise cw x y d = (Ok false, d)
  \/ (exists e, revise cw x y d = (Raise e, d))
  \/ (exists i j dx rm,
        overlaps cw x y = Some (i, j)
        /\ dict_get x d = Some dx
        /\ words_remove d i j y dx = Ok rm
        /\ rm <> []
        /\ revise cw x y d
           = (Ok true, dict_set x (set_diff String.eqb dx rm) d)).
Proof.
  unfold revise. destruct (overlaps cw x y) as [[i j]|]; [|now left].
  unfold domain_of. destruct (dict_get x d) as [dx|] eqn:Ex; simpl;
    [|right; left; eauto].
  pose proof (words_remove_fuel d i j y dx) as F.
  destruct (words_remove d i j y dx) as [rm|e|] eqn:Er; simpl;
    [|right; left; eauto|congruence].
  destruct rm as [|w rm]; simpl; [now left|].
  right; right. exists i, j, dx, (w :: rm). repeat split; auto. discriminate.
Qed.

Lemma revise_fuel x y d : fst (revise cw x y d) <> OutOfFuel.
Proof.
  destruct (revise_cases x y d) as [H|[[e H]|(i & j & dx & rm & _ & _ & _ & _ & H)]];
    rewrite H; discriminate.
Qed.

Lemma revise_shrinks x y d : shrinks d (snd (revise cw x y d)).
Proof.
  destruct (revise_cases x y d) as [H|[[e H]|(i & j & dx & rm & _ & Hx & Hr & _ & H)]];
    rewrite H; simpl; try apply shrinks_refl.
  eapply shrinks_set; [eassumption|].
  intros w Hw. now apply set_diff_str_In in Hw.
Qed.

Lemma revise_frame x y d z :
  z <> x -> dict_get z (snd (revise cw x y d)) = dict_get z d.
Proof.
  intros N.
  destruct (revise_cases x y d) as [H|[[e H]|(i & j & dx & rm & _ & Hx & Hr & _ & H)]];
    rewrite H; simpl; try reflexivity.
  now apply dict_get_set_other.
Qed.

Lemma revise_not_revised x y d o d' :
  revise cw x y d = (o, d') -> o <> Ok true -> d' = d.
Proof.
  intros E N.
  destruct (revise_cases x y d) as [H|[[e H]|(i & j & dx & rm & _ & Hx & Hr & _ & H)]];
    rewrite H in E; inversion E; subst; congruence.
Qed.

Lemma revise_revised_smaller x y d d' :
  revise cw x y d = (Ok true, d') -> total_size d' < total_size d.
Proof.
  intros E.
  destruct (revise_cases x y d) as [H|[[e H]|(i & j & dx & rm & _ & Hx & Hr & Hn & H)]];
    rewrite H in E; inversion E; subst.
  pose proof (total_size_set x dx (set_diff String.eqb dx rm) d Hx) as T.
  destruct rm as [|w rm]; [congruence|].
  assert (List.length (set_diff String.eqb dx (w :: rm)) < List.length dx).
  { apply filter_length_lt with (a := w).
    - eapply words_remove_incl; [eassumption | now left].
    - apply negb_false_iff. apply set_mem_str. now left. }
  lia.
Qed.

(** A revision that removed something leaves [x] with a strictly smaller
    domain, which was therefore not empty. *)
Lemma revise_revised_nonempty x y d d' :
  revise cw x y d = (Ok true, d') ->
  exists dx dx', dict_get x d = Some dx /\ dict_get x d' = Some dx'
                 /\ dx <> [] /\ incl dx' dx.
Proof.
  intros E.
  destruct (revise_cases x y d) as [H|[[e H]|(i & j & dx & rm & _ & Hx & Hr & Hn & H)]];
    rewrite H in E; inversion E; subst.
  exists dx, (set_diff String.eqb dx rm). rewrite dict_get_set_same.
  repeat split; auto.
  - intros ->. apply words_remove_incl in Hr. destruct rm as [|w rm]; [congruence|].
    apply (Hr w). now left.
  - intros w Hw. now apply set_diff_str_In in Hw.
Qed.
End ReviseFacts.

(** C10: [revise(x, y)] only ever modifies the domain of [x].  Whatever
    the store and whatever the way the call ends, a slot [z] other than [x]
    (the slot [y] of an arc in particular) keeps its domain, the store keeps
    its slots, and the domain left for [x] is a subset of the one before. *)
Theorem revise_only_shrinks_x (cw : Crossword) (x y z : variable) (d : domains)
    (Hz : z <> x) :
  dict_get z (snd (revise cw x y d)) = dict_get z d
  /\ dict_keys (snd (revise cw x y d)) = dict_keys d
  /\ incl (domain (snd (revise cw x y d)) x) (domain d x).
Proof.
  split; [now apply revise_frame|].
  destruct (revise_shrinks cw x y d) as [K S]. split; [exact K|].
  unfold domain. destruct (dict_get x (snd (revise cw x y d))) as [s'|] eqn:E.
  - destruct (S _ _ E) as (s & -> & I). exact I.
  - intros w [].
Qed.

Lemma revise_only_shrinks_x_witness :
  dict_get Examples.slot_B
    (snd (revise Examples.cat_dog Examples.slot_A Examples.slot_B
            (init_domains Examples.cat_dog)))
  = dict_get Examples.slot_B (init_domains Examples.cat_dog).
Proof.
  refine (proj1 (revise_only_shrinks_x Examples.cat_dog Examples.slot_A
                   Examples.slot_B Examples.slot_B _ _)).
  discriminate.
Defined.

Lemma revise_in_range (cw : Crossword) (x y : variable) (d : domains)
    i j dx dy :
  overlaps cw x y = Some (i, j) ->
  dict_get x d = Some dx -> dict_get y d = Some dy ->
  (forall w, In w dx -> i < String.length w) ->
  (forall w2, In w2 dy -> j < String.length w2) ->
  exists b d',
    revise cw x y d = (Ok b, d')
    /\ (forall w, In w (domain d' x) <->
                  In w dx /\ exists w2, In w2 dy /\ letters_agree i j w w2)
    /\ (b = true <->
        exists w, In w dx
                  /\ ~ exists w2, In w2 dy /\ letters_agree i j w w2)
    /\ (forall z, z <> x -> dict_get z d' = dict_get z d).
Proof.
  intros Ho Hx Hy Hi Hj. unfold revise. rewrite Ho.
  unfold domain_of. rewrite Hx. simpl.
  rewrite (words_remove_in_range d i j y dx dy) by auto. simpl.
  destruct (filter (fun w => negb (has_match i j w dy)) dx) as [|r rm] eqn:E; simpl.
  - assert (forall w, In w dx -> has_match i j w dy = true) as All.
    { intros w Hw. destruct (has_match i j w dy) eqn:Em; [reflexivity|].
      assert (In w []) as []. rewrite <- E. apply filter_In. now rewrite Em. }
    exists false, d. split; [reflexivity|]. unfold domain. rewrite Hx.
    repeat split; try tauto; try discriminate.
    + apply has_match_iff. now apply All.
    + intros (w & Hw & N). exfalso. apply N, has_match_iff. now apply All.
  - rewrite <- E. eexists true, _. split; [reflexivity|].
    unfold domain. rewrite dict_get_set_same.
    assert (forall w, In w (set_diff String.eqb dx
                              (filter (fun w => negb (has_match i j w dy)) dx))
                      <-> In w dx /\ has_match i j w dy = true) as Keep.
    { intros w. rewrite set_diff_str_In, filter_In, negb_true_iff.
      destruct (has_match i j w dy); intuition congruence. }
    repeat split.
    + now apply Keep.
    + apply has_match_iff. now apply Keep.
    + intros [Hw Hm]. apply Keep. split; [assumption | now apply has_match_iff].
    + intros _. exists r.
      assert (In r (filter (fun w => negb (has_match i j w dy)) dx)) as Hr
          by (rewrite E; now left).
      apply filter_In in Hr as [Hr Hm]. split; [assumption|].
      rewrite <- has_match_iff. apply negb_true_iff in Hm. congruence.
    + intros z Hz. now apply dict_get_set_other.
Qed.

Lemma revise_no_overlap (cw : Crossword) (x y : variable) (d : domains) :
  overlaps cw x y = None -> revise cw x y d = (Ok false, d).
Proof. intros Ho. unfold revise. now rewrite Ho. Qed.

(** C6: when [x] and [y] overlap at [(i, j)] and the indices lie inside the
    words of the two domains, [revise(x, y)] returns normally, keeps in the
    domain of [x] exactly the words that agree with some word of the domain
    of [y] at the shared cell, touches no other domain, and returns [True]
    iff a word was removed.  Without an overlap it returns [False] and
    leaves the store as it is. *)
Theorem revise_spec (cw : Crossword) (x y : variable) (d : domains) :
  (forall i j dx dy,
      overlaps cw x y = Some (i, j) ->
      dict_get x d = Some dx -> dict_get y d = Some dy ->
      (forall w, In w dx -> i < String.length w) ->
      (forall w2, In w2 dy -> j < String.length w2) ->
      exists b d',
        revise cw x y d = (Ok b, d')
        /\ (forall w, In w (domain d' x) <->
                      In w dx /\ exists w2, In w2 dy /\ letters_agree i j w w2)
        /\ (b = true <->
            exists w, In w dx
                      /\ ~ exists w2, In w2 dy /\ letters_agree i j w w2)
        /\ (forall z, z <> x -> dict_get z d' = dict_get z d))
  /\ (overlaps cw x y = None -> revise cw x y d = (Ok false, d)).
Proof.
  split.
  - intros i j dx dy. apply revise_in_range.
  - apply revise_no_overlap.
Qed.

Lemma revise_spec_witness :
  (exists b d',
      revise (Examples.cat_top [Examples.slot_A; Examples.slot_B]
                ["cat"; "top"]%string)
        Examples.slot_A Examples.slot_B
        [(Examples.slot_A, ["cat"; "top"]%string);
         (Examples.slot_B, ["cat"; "top"]%string)] = (Ok b, d')
      /\ (b = true <->
          exists w, In w ["cat"; "top"]%string
                    /\ ~ exists w2, In w2 ["cat"; "top"]%string
                                    /\ letters_agree 2 0 w w2))
  /\ revise Examples.arch Examples.left Examples.right
       (init_domains Examples.arch)
     = (Ok false, init_domains Examples.arch).
Proof.
  split.
  - destruct (proj1 (revise_spec
                       (Examples.cat_top [Examples.slot_A; Examples.slot_B]
                          ["cat"; "top"]%string)
                       Examples.slot_A Examples.slot_B
                       [(Examples.slot_A, ["cat"; "top"]%string);
                        (Examples.slot_B, ["cat"; "top"]%string)])
                2 0 ["cat"; "top"]%string ["cat"; "top"]%string
                eq_refl eq_refl eq_refl)
      as (b & d' & E & _ & B & _).
    + intros w [<-|[<-|[]]]; simpl; lia.
    + intros w [<-|[<-|[]]]; simpl; lia.
    + exists b, d'. split; assumption.
  - apply (proj2 (revise_spec Examples.arch Examples.left Examples.right
                    (init_domains Examples.arch))).
    reflexivity.
Defined.

(** ** [ac3] *)

Section Ac3Facts.
Variable cw : Crossword.

Lemma requeued_filter x y :
  requeued cw x y
  = map (fun z => (z, x))
        (filter (fun z => negb (variable_eqb z y)) (neighbors cw x)).
Proof.
  unfold requeued, set_diff. f_equal. apply filter_ext.
  intros z. simpl. now rewrite orb_false_r.
Qed.

Lemma requeued_length x y : List.length (requeued cw x y) <= List.length (variables cw).
Proof.
  unfold requeued, set_diff, neighbors. rewrite length_map.
  eapply Nat.le_trans; apply filter_length_le.
Qed.

Lemma ac3_loop_step fuel x y rest d :
  ac3_loop cw (S fuel) ((x, y) :: rest) d
  = match revise cw x y d with
    | (Ok true, d') =>
        match dict_get x d' with
        | Some [] => (Ok false, d')
        | Some (_ :: _) => ac3_loop cw fuel (rest ++ requeued cw x y) d'
        | None => (Raise KeyError, d')
        end
    | (Ok false, d') => ac3_loop cw fuel rest d'
    | (Raise e, d') => (Raise e, d')
    | (OutOfFuel, d') => (OutOfFuel, d')
    end.
Proof.
  simpl. unfold bind, reads, domain_of.
  destruct (revise cw x y d) as [[[|]| |] d']; try reflexivity.
  destruct (dict_get x d') as [[|]|]; reflexivity.
Qed.

(** The budget of [ac3] is never exhausted. *)
Lemma ac3_loop_total fuel : forall q d,
  potential cw q d <= fuel -> fst (ac3_loop cw fuel q d) <> OutOfFuel.
Proof.
  unfold potential.
  induction fuel as [|fuel IH]; intros [|[x y] rest] d H;
    try (simpl; discriminate); [simpl in H; lia|].
  rewrite ac3_loop_step.
  pose proof (revise_fuel cw x y d) as F.
  destruct (revise cw x y d) as [[[|]|e|] d'] eqn:E; simpl in F;
    try discriminate; try congruence.
  - pose proof (revise_revised_smaller cw x y d d' E) as Lt.
    destruct (dict_get x d') as [[|w s]|]; try discriminate.
    apply IH. rewrite length_app. pose proof (requeued_length x y).
    simpl in H. nia.
  - assert (d' = d) by (eapply revise_not_revised; [eassumption | discriminate]).
    subst. apply IH. simpl in H. lia.
Qed.

Lemma ac3_loop_shrinks fuel : forall q d,
  shrinks d (snd (ac3_loop cw fuel q d)).
Proof.
  induction fuel as [|fuel IH]; intros [|[x y] rest] d;
    try (simpl; apply shrinks_refl).
  rewrite ac3_loop_step.
  pose proof (revise_shrinks cw x y d) as S.
  destruct (revise cw x y d) as [[[|]|e|] d'] eqn:E; simpl in S; simpl; auto.
  - destruct (dict_get x d') as [[|w s]|]; simpl; auto.
    eapply shrinks_trans; [exact S | apply IH].
  - eapply shrinks_trans; [exact S | apply IH].
Qed.

(** The loop follows the described run ... *)
Lemma ac3_loop_run fuel : forall q d b d',
  ac3_loop cw fuel q d = (Ok b, d') -> ac3_run cw q d b d'.
Proof.
  induction fuel as [|fuel IH]; intros [|[x y] rest] d b d' H;
    try (simpl in H; inversion H; subst; constructor);
    try (simpl in H; discriminate).
  rewrite ac3_loop_step in H.
  destruct (revise cw x y d) as [[[|]|e|] d1] eqn:E; try discriminate.
  - destruct (dict_get x d1) as [[|w s]|] eqn:Ex; try discriminate.
    + inversion H; subst. eapply run_emptied; eassumption.
    + eapply run_requeue; try eassumption.
      rewrite <- requeued_filter. now apply IH.
  - eapply run_unchanged; [eassumption | now apply IH].
Qed.

(** ... and every described run is the one the loop makes. *)
Lemma ac3_run_loop q d b d' :
  ac3_run cw q d b d' ->
  forall fuel, potential cw q d <= fuel -> ac3_loop cw fuel q d = (Ok b, d').
Proof.
  unfold potential.
  induction 1 as [d|x y rest d d1 b d2 E R IH|x y rest d d1 E Ex
                 |x y rest d d1 w s b d2 E Ex R IH]; intros fuel Hf.
  - destruct fuel; reflexivity.
  - destruct fuel as [|fuel]; [simpl in Hf; lia|].
    rewrite ac3_loop_step, E. apply IH.
    assert (d1 = d) by (eapply revise_not_revised; [eassumption | discriminate]).
    subst. simpl in Hf. lia.
  - destruct fuel as [|fuel]; [simpl in Hf; lia|].
    now rewrite ac3_loop_step, E, Ex.
  - destruct fuel as [|fuel]; [simpl in Hf; lia|].
    rewrite ac3_loop_step, E, Ex. rewrite requeued_filter. apply IH.
    pose proof (revise_revised_smaller cw x y d d1 E) as Lt.
    pose proof (requeued_length x y) as Lq. rewrite requeued_filter in Lq.
    rewrite length_app. simpl in Hf. nia.
Qed.

(** A run answers [False] exactly when a domain that held a word at the
    start is empty at the end. *)
Lemma ac3_run_false q d b d' :
  ac3_run cw q d b d' ->
  (b = false <->
   exists x w s, dict_get x d = Some (w :: s) /\ dict_get x d' = Some []).
Proof.
  induction 1 as [d|x y rest d d1 b d2 E R IH|x y rest d d1 E Ex
                 |x y rest d d1 w s b d2 E Ex R IH].
  - split; [discriminate|]. intros (x & w & s & H1 & H2). congruence.
  - assert (d1 = d) by (eapply revise_not_revised; [eassumption | discriminate]).
    now subst.
  - split; [|reflexivity]. intros _.
    destruct (revise_revised_nonempty cw x y d d1 E) as (dx & dx' & Hx & Hx' & Hn & _).
    destruct dx as [|w s]; [congruence|]. eauto.
  - rewrite IH. split.
    + intros (x0 & w0 & s0 & H1 & H2).
      pose proof (revise_shrinks cw x y d) as [_ S]. rewrite E in S. simpl in S.
      destruct (S _ _ H1) as (s1 & Hs1 & I).
      destruct s1 as [|w1 s1]; [destruct (I w0 (or_introl eq_refl))|]. eauto.
    + intros (x0 & w0 & s0 & H1 & H2).
      destruct (variable_eqb x0 x) eqn:Eq.
      * apply variable_eqb_eq in Eq. subst x0. eauto.
      * apply variable_eqb_neq in Eq.
        pose proof (revise_frame cw x y d x0 Eq) as Fr. rewrite E in Fr. simpl in Fr.
        exists x0, w0, s0. split; [congruence | assumption].
Qed.
End Ac3Facts.

(** C7: [ac3] always comes to an end.  It returns exactly as the described
    run does: an arc whose revision changed nothing is dropped; a revision
    that empties the domain of [x] ends the call with [False] at once; any
    other revision that shrank the domain of [x] queues the arcs [(z, x)]
    for the neighbours [z] of [x] other than [y]; the empty queue ends the
    call with [True].  [False] is returned iff a slot whose domain held a
    word before the call has an empty domain after it. *)
Theorem ac3_spec (cw : Crossword) (arcs : option (list (variable * variable)))
    (d : domains) :
  fst (ac3 cw arcs d) <> OutOfFuel
  /\ (forall b d',
        ac3 cw arcs d = (Ok b, d') <-> ac3_run cw (initial_queue cw arcs) d b d')
  /\ (forall b d',
        ac3 cw arcs d = (Ok b, d') ->
        (b = false <->
         exists x w s, dict_get x d = Some (w :: s) /\ dict_get x d' = Some [])).
Proof.
  unfold ac3. fold (initial_queue cw arcs). unfold ac3_fuel.
  split; [apply ac3_loop_total; unfold potential; lia|].
  split.
  - intros b d'. split.
    + apply ac3_loop_run.
    + intros R. eapply ac3_run_loop; [eassumption | unfold potential; lia].
  - intros b d' H. eapply ac3_run_false, ac3_loop_run, H.
Qed.

Lemma ac3_spec_witness :
  exists x w s,
    dict_get x (node_filtered Examples.cat_dog) = Some (w :: s)
    /\ dict_get x [(Examples.slot_A, []);
                   (Examples.slot_B, ["cat"; "dog"]%string)] = Some [].
Proof.
  refine (proj1 (proj2 (proj2 (ac3_spec Examples.cat_dog None
                                 (node_filtered Examples.cat_dog)))
                   false _ _) eq_refl).
  vm_compute. reflexivity.
Defined.

(** ** [select_unassigned_variable] *)

Section SelectFacts.
Variable cw : Crossword.
Variable d : domains.

Lemma selection_step_inv s var s' seen :
  selection_inv cw d s seen ->
  selection_step cw d s var = Ok s' ->
  selection_inv cw d s' (seen ++ [var]).
Proof.
  unfold selection_inv, selection_step, domain_of, preferred.
  intros I H. destruct (dict_get var d) as [dv|] eqn:Ev; [|discriminate].
  simpl in H. inversion H; subst s'; clear H.
  assert (domain d var = dv) as Dv by (unfold domain; now rewrite Ev).
  destruct (unassigned_var s) as [v|] eqn:Eu.
  - destruct I as (Hin & Hm & Hd & Hbest). rewrite Hm, Hd.
    destruct ((List.length dv <? List.length (domain d v))
              || (List.length dv =? List.length (domain d v))
                 && (Z.of_nat (List.length (neighbors cw v))
                     <? Z.of_nat (List.length (neighbors cw var)))%Z) eqn:B; simpl.
    + rewrite Dv. repeat split; auto using in_or_app, in_eq.
      * apply in_app_iff in H as [H|[<-|[]]]; [|rewrite Dv; lia].
        destruct (Hbest u H) as [L _].
        apply orb_true_iff in B as [B|B];
          [apply Nat.ltb_lt in B | apply andb_true_iff in B as [B _];
                                   apply Nat.eqb_eq in B]; lia.
      * intros E. apply in_app_iff in H as [H|[<-|[]]]; [|lia].
        destruct (Hbest u H) as [L T].
        apply orb_true_iff in B as [B|B].
        -- apply Nat.ltb_lt in B. lia.
        -- apply andb_true_iff in B as [B1 B2].
           apply Nat.eqb_eq in B1. apply Z.ltb_lt in B2.
           specialize (T ltac:(lia)). lia.
    + rewrite Eu. apply orb_false_iff in B as [B1 B2].
      apply Nat.ltb_ge in B1.
      repeat split; auto using in_or_app.
      * apply in_app_iff in H as [H|[<-|[]]]; [now apply Hbest|].
        rewrite Dv. lia.
      * apply in_app_iff in H as [H|[<-|[]]]; [now apply Hbest|].
        rewrite Dv. intros E. rewrite E, Nat.eqb_refl in B2. simpl in B2.
        apply Z.ltb_ge in B2. lia.
  - destruct I as [-> Hm]. rewrite Hm. simpl.
    repeat split; rewrite ?Dv; auto; destruct H as [<-|[]]; rewrite ?Dv; lia.
Qed.

Lemma selection_loop_inv vars : forall s seen s',
  selection_inv cw d s seen ->
  selection_loop cw d s vars = Ok s' ->
  selection_inv cw d s' (seen ++ vars).
Proof.
  induction vars as [|var vars IH]; simpl; intros s seen s' I H.
  - inversion H; subst. now rewrite app_nil_r.
  - destruct (selection_step cw d s var) as [s1| |] eqn:E; simpl in H;
      try discriminate.
    replace (seen ++ var :: vars) with ((seen ++ [var]) ++ vars)
      by (now rewrite <- app_assoc).
    eapply IH; [|eassumption]. eapply selection_step_inv; eassumption.
Qed.

Lemma selection_loop_ok vars : forall s,
  (forall x, In x vars -> dict_get x d <> None) ->
  exists s', selection_loop cw d s vars = Ok s'.
Proof.
  induction vars as [|var vars IH]; simpl; intros s C; [eauto|].
  unfold selection_step at 1, domain_of.
  destruct (dict_get var d) eqn:E; [|destruct (C var); auto].
  simpl. apply IH. auto.
Qed.

(** What a normal return of [select_unassigned_variable] says. *)
Lemma select_unassigned_variable_inv a r :
  select_unassigned_variable cw a d = Ok r ->
  match r with
  | Some v =>
      In v (variables cw) /\ dict_mem v a = false
      /\ forall u, In u (variables cw) -> dict_mem u a = false ->
                   preferred cw d v u
  | None => forall u, In u (variables cw) -> dict_mem u a = true
  end.
Proof.
  unfold select_unassigned_variable. intros H.
  destruct (selection_loop cw d _ _) as [s| |] eqn:E; simpl in H; try discriminate.
  inversion H; subst r; clear H.
  apply (selection_loop_inv _ _ []) in E; [|now split].
  simpl in E. unfold selection_inv in E.
  assert (forall u, In u (set_diff variable_eqb (variables cw) (dict_keys a))
                    <-> In u (variables cw) /\ dict_mem u a = false) as U.
  { intros u. rewrite set_diff_var_In, <- dict_mem_keys.
    destruct (dict_mem u a); intuition congruence. }
  destruct (unassigned_var s) as [v|].
  - destruct E as (Hin & _ & _ & Hbest). apply U in Hin as [Hv Ha].
    split; [assumption|]. split; [assumption|].
    intros u Hu Hua. apply Hbest, U. auto.
  - destruct E as [E _]. intros u Hu.
    destruct (dict_mem u a) eqn:Em; [reflexivity|].
    assert (In u []) as []. rewrite <- E. apply U. auto.
Qed.
End SelectFacts.

Lemma select_unassigned_variable_some (cw : Crossword) (a : assignment)
    (d : domains) :
  (forall x, In x (variables cw) -> dict_get x d <> None) ->
  (exists x, In x (variables cw) /\ dict_mem x a = false) ->
  exists v,
    select_unassigned_variable cw a d = Ok (Some v)
    /\ In v (variables cw) /\ dict_mem v a = false
    /\ forall u, In u (variables cw) -> dict_mem u a = false ->
                 preferred cw d v u.
Proof.
  intros Hstore Hopen.
  destruct (selection_loop_ok cw d
              (set_diff variable_eqb (variables cw) (dict_keys a))
              {| unassigned_var := None; min_num_var := None;
                 max_degree := (-1)%Z |}) as [s Hs].
  { intros x Hx. apply Hstore. now apply set_diff_var_In in Hx. }
  assert (select_unassigned_variable cw a d = Ok (unassigned_var s)) as E
      by (unfold select_unassigned_variable; now rewrite Hs).
  pose proof (select_unassigned_variable_inv cw d a _ E) as I.
  destruct (unassigned_var s) as [v|].
  - exists v. destruct I as (Hv & Ha & Hbest). repeat split; auto;
      now apply Hbest.
  - destruct Hopen as (x & Hx & Hxa). rewrite (I x Hx) in Hxa. discriminate.
Qed.

(** C8: on a store that has a domain for every slot and an assignment that
    leaves a slot out, [select_unassigned_variable] returns a slot absent
    from the assignment with the fewest remaining words among the absent
    slots and, among those with as few words, the most neighbours. *)
Theorem select_unassigned_variable_spec (cw : Crossword) (a : assignment)
    (d : domains)
    (Hstore : forall x, In x (variables cw) -> dict_get x d <> None)
    (Hopen : exists x, In x (variables cw) /\ dict_mem x a = false) :
  exists v,
    select_unassigned_variable cw a d = Ok (Some v)
    /\ In v (variables cw) /\ dict_mem v a = false
    /\ forall u, In u (variables cw) -> dict_mem u a = false ->
         List.length (domain d v) <= List.length (domain d u)
         /\ (List.length (domain d u) = List.length (domain d v) ->
             List.length (neighbors cw u) <= List.length (neighbors cw v)).
Proof.
  destruct (select_unassigned_variable_some cw a d Hstore Hopen)
    as (v & E & Hv & Ha & Hbest).
  exists v. repeat split; auto; now apply Hbest.
Qed.

Lemma select_unassigned_variable_spec_witness :
  exists v,
    select_unassigned_variable Examples.arch [(Examples.left, "AX"%string)]
      (init_domains Examples.arch) = Ok (Some v)
    /\ In v (variables Examples.arch)
    /\ dict_mem v [(Examples.left, "AX"%string)] = false.
Proof.
  destruct (select_unassigned_variable_spec Examples.arch
              [(Examples.left, "AX"%string)] (init_domains Examples.arch))
    as (v & E & Hv & Ha & _).
  - intros x [<-|[<-|[<-|[]]]]; discriminate.
  - exists Examples.top. split; [now left | reflexivity].
  - exists v. auto.
Defined.

(** ** [enforce_node_consistency] *)

Section DictMore.
Context {V : Type}.
Implicit Types (d : dict V) (k : variable) (v : V).

Lemma dict_set_same k v d : dict_get k d = Some v -> dict_set k v d = d.
Proof.
  induction d as [|[k' v'] d IH]; simpl; [discriminate|].
  destruct (variable_eqb k k'); intros H; [congruence|].
  f_equal. auto.
Qed.

Lemma dict_set_set k v v' d : dict_set k v (dict_set k v' d) = dict_set k v d.
Proof.
  induction d as [|[k0 v0] d IH]; simpl.
  - now rewrite variable_eqb_refl.
  - destruct (variable_eqb k k0) eqn:E; simpl; rewrite E; congruence.
Qed.

Lemma dict_get_app_new k d r : dict_get k d = None -> dict_get k (d ++ r) = dict_get k r.
Proof.
  induction d as [|[k' v'] d IH]; simpl; [reflexivity|].
  destruct (variable_eqb k k'); [discriminate | assumption].
Qed.

Lemma dict_set_app_new k v d r :
  dict_get k d = None -> dict_set k v (d ++ r) = d ++ dict_set k v r.
Proof.
  induction d as [|[k' v'] d IH]; simpl; [reflexivity|].
  destruct (variable_eqb k k'); [discriminate|]. intros H. f_equal. auto.
Qed.

Lemma dict_get_app_none k d r :
  dict_get k d = None -> dict_get k r = None -> dict_get k (d ++ r) = None.
Proof. intros H1 H2. now rewrite dict_get_app_new. Qed.

Lemma dict_get_map k (f : variable -> V) vs :
  In k vs -> dict_get k (map (fun x => (x, f x)) vs) = Some (f k).
Proof.
  induction vs as [|x vs IH]; simpl; [tauto|].
  destruct (variable_eqb k x) eqn:E.
  - apply variable_eqb_eq in E. now subst.
  - apply variable_eqb_neq in E. intros [->|H]; [congruence | auto].
Qed.
End DictMore.

Section NodeConsistency.
Variable cw : Crossword.

(** First pass: each misfit of [ws] is in the domain and is taken out. *)
Lemma remove_misfits_first var ws : forall s d,
  dict_get var d = Some s -> NoDup ws -> incl ws s ->
  remove_misfits var ws d
  = (Ok tt,
     dict_set var
       (filter (fun w => negb (set_mem String.eqb w ws
                               && negb (String.length w =? var_length var))) s)
       d).
Proof.
  unfold remove_misfits.
  induction ws as [|w ws IH]; simpl; intros s d Hs ND I.
  - unfold ret. f_equal. symmetry. apply dict_set_same.
    rewrite Hs. f_equal. symmetry. clear. induction s; simpl; congruence.
  - inversion ND as [|? ? Hnin ND']; subst.
    assert (In w s) as Hw by (apply I; now left).
    unfold bind at 1.
    destruct (String.length w =? var_length var) eqn:L; simpl.
    + rewrite (IH s d Hs ND') by (intros x Hx; apply I; now right).
      do 2 f_equal. apply filter_ext_in. intros x Hx.
      destruct (String.eqb x w) eqn:E; simpl; [|reflexivity].
      apply String.eqb_eq in E. subst x. rewrite L. simpl.
      now rewrite andb_false_r.
    + unfold domain_remove. rewrite Hs.
      rewrite (proj2 (set_mem_str w s) Hw).
      rewrite (IH (set_discard String.eqb w s)).
      * rewrite dict_set_set. do 2 f_equal. unfold set_discard.
        rewrite filter_twice. apply filter_ext. intros x.
        rewrite (String.eqb_sym x w).
        destruct (String.eqb w x) eqn:E; simpl; [|now rewrite andb_true_r].
        apply String.eqb_eq in E. subst x. rewrite L. simpl.
        now rewrite andb_false_r.
      * apply dict_get_set_same.
      * assumption.
      * intros x Hx. unfold set_discard. apply filter_In. split.
        -- apply I. now right.
        -- apply negb_true_iff. destruct (String.eqb w x) eqn:E; [|reflexivity].
           apply String.eqb_eq in E. now subst.
Qed.

(** Second pass: a misfit is no longer in the domain and [remove] raises
    before anything is changed. *)
Lemma remove_misfits_again var ws : forall s d,
  dict_get var d = Some s ->
  (forall w, In w s -> String.length w = var_length var) ->
  remove_misfits var ws d
  = (if forallb (fun w => String.length w =? var_length var) ws
     then Ok tt else Raise KeyError, d).
Proof.
  unfold remove_misfits.
  induction ws as [|w ws IH]; simpl; intros s d Hs Fit; [reflexivity|].
  unfold bind at 1.
  destruct (String.length w =? var_length var) eqn:L; simpl.
  - now apply (IH s).
  - unfold domain_remove. rewrite Hs.
    destruct (set_mem String.eqb w s) eqn:E; [|reflexivity].
    apply set_mem_str, Fit in E. apply Nat.eqb_neq in L. contradiction.
Qed.

Lemma enforce_first vs : forall done,
  NoDup vs -> NoDup (words cw) ->
  (forall v, In v vs -> dict_get v done = None) ->
  for_each vs (fun var => remove_misfits var (words cw))
    (done ++ map (fun var => (var, words cw)) vs)
  = (Ok tt, done ++ map (fun var => (var, fitting var (words cw))) vs).
Proof.
  induction vs as [|v vs IH]; simpl; intros done NDv NDw Fresh; [reflexivity|].
  inversion NDv as [|? ? Hnin NDv']; subst.
  unfold bind at 1.
  rewrite (remove_misfits_first v (words cw) (words cw));
    [| rewrite dict_get_app_new by auto using in_eq; simpl;
       now rewrite variable_eqb_refl
     | assumption | apply incl_refl].
  rewrite dict_set_app_new by auto using in_eq. simpl.
  rewrite variable_eqb_refl.
  replace (filter _ (words cw)) with (fitting v (words cw)).
  - specialize (IH (done ++ [(v, fitting v (words cw))]) NDv' NDw).
    rewrite <- !app_assoc in IH. simpl in IH. apply IH.
    intros v' Hv'. apply dict_get_app_none; [auto using in_cons|].
    simpl. destruct (variable_eqb v' v) eqn:E; [|reflexivity].
    apply variable_eqb_eq in E. now subst.
  - unfold fitting. apply filter_ext_in. intros x Hx.
    rewrite (proj2 (set_mem_str x (words cw)) Hx). simpl.
    now rewrite negb_involutive.
Qed.

Lemma enforce_again vs : forall d,
  (forall v, In v vs ->
     exists s, dict_get v d = Some s
               /\ forall w, In w s -> String.length w = var_length v) ->
  for_each vs (fun var => remove_misfits var (words cw)) d
  = (if forallb (fun var =>
                   forallb (fun w => String.length w =? var_length var)
                           (words cw)) vs
     then Ok tt else Raise KeyError, d).
Proof.
  induction vs as [|v vs IH]; simpl; intros d Fit; [reflexivity|].
  unfold bind at 1.
  destruct (Fit v (or_introl eq_refl)) as (s & Hs & Hfit).
  rewrite (remove_misfits_again v (words cw) s d Hs Hfit).
  destruct (forallb _ (words cw)); simpl; [|reflexivity].
  apply IH. auto.
Qed.

Lemma node_filtered_consistent : node_consistent cw (node_filtered cw).
Proof.
  intros x Hx. exists (fitting x (words cw)). split.
  - unfold node_filtered. now apply (dict_get_map x (fun v => fitting v (words cw))).
  - intros w Hw. apply filter_In in Hw as [_ Hw]. now apply Nat.eqb_eq.
Qed.

Lemma enforce_node_consistency_init :
  NoDup (variables cw) -> NoDup (words cw) ->
  enforce_node_consistency cw (init_domains cw) = (Ok tt, node_filtered cw).
Proof.
  intros NDv NDw. apply (enforce_first (variables cw) [] NDv NDw).
  reflexivity.
Qed.
End NodeConsistency.

(** C3, as the code has it: on the initial store of a puzzle whose slot set
    and word set hold no repetition, [enforce_node_consistency] returns
    normally and leaves every slot with the words of its length.  A second
    run leaves that store as it is; it returns normally when every word
    fits every slot, and otherwise raises [KeyError] on the first word it
    tries to remove again. *)
Theorem enforce_node_consistency_twice (cw : Crossword)
    (NDv : NoDup (variables cw)) (NDw : NoDup (words cw)) :
  enforce_node_consistency cw (init_domains cw) = (Ok tt, node_filtered cw)
  /\ enforce_node_consistency cw (node_filtered cw)
     = (if all_fit cw then Ok tt else Raise KeyError, node_filtered cw).
Proof.
  split; [now apply enforce_node_consistency_init|].
  apply enforce_again. intros v Hv. now apply node_filtered_consistent.
Qed.

Lemma enforce_node_consistency_twice_witness :
  enforce_node_consistency Examples.arch (node_filtered Examples.arch)
  = (Raise KeyError, node_filtered Examples.arch).
Proof.
  refine (proj2 (enforce_node_consistency_twice Examples.arch _ _)).
  - apply nodupb_var. reflexivity.
  - apply nodupb_str. reflexivity.
Defined.

(** C3, as stated, fails on the arch puzzle: the second run does not
    complete, it raises [KeyError]. *)
Lemma enforce_node_consistency_not_idempotent :
  exists d1,
    enforce_node_consistency Examples.arch (init_domains Examples.arch)
    = (Ok tt, d1)
    /\ fst (enforce_node_consistency Examples.arch d1) = Raise KeyError
    /\ fst (enforce_node_consistency Examples.arch d1) <> Ok tt.
Proof.
  eexists. split; [vm_compute; reflexivity|].
  split; [vm_compute; reflexivity | vm_compute; discriminate].
Qed.

(** ** Well-formed puzzles *)

Section WellFormed.
Variable cw : Crossword.
Hypothesis WF : well_formed cw = true.

Lemma wf_nodup_variables : NoDup (variables cw).
Proof.
  unfold well_formed in WF. rewrite !andb_true_iff in WF.
  now apply nodupb_var.
Qed.

Lemma wf_nodup_words : NoDup (words cw).
Proof.
  unfold well_formed in WF. rewrite !andb_true_iff in WF.
  now apply nodupb_str.
Qed.

Lemma wf_length x : In x (variables cw) -> 0 < var_length x.
Proof.
  unfold well_formed in WF. rewrite !andb_true_iff in WF.
  destruct WF as [[_ L] _]. rewrite forallb_forall in L.
  intros Hx. now apply Nat.ltb_lt, L.
Qed.

Lemma wf_overlap x y i j :
  In x (variables cw) -> In y (variables cw) ->
  overlaps cw x y = Some (i, j) ->
  i < var_length x /\ j < var_length y /\ overlaps cw y x <> None.
Proof.
  unfold well_formed in WF. rewrite !andb_true_iff in WF.
  destruct WF as [_ O]. rewrite forallb_forall in O.
  intros Hx Hy E. specialize (O x Hx). rewrite forallb_forall in O.
  specialize (O y Hy). unfold overlap_ok in O. rewrite E in O.
  rewrite !andb_true_iff, !Nat.ltb_lt in O. destruct O as [[? ?] S].
  repeat split; try assumption. destruct (overlaps cw y x); congruence.
Qed.
End WellFormed.

Lemma neighbors_In cw x y :
  In y (neighbors cw x)
  <-> In y (variables cw) /\ y <> x /\ overlaps cw y x <> None.
Proof.
  unfold neighbors. rewrite filter_In, andb_true_iff, negb_true_iff,
    variable_eqb_neq.
  destruct (overlaps cw y x); intuition congruence.
Qed.

(** ** [consistent] *)

Section ConsistentFacts.
Variable cw : Crossword.

Lemma agrees_with_neighbors_true a x wx ns :
  agrees_with_neighbors cw a x wx ns = Ok true ->
  forall y wy, In y ns -> dict_get y a = Some wy ->
    exists i j, overlaps cw x y = Some (i, j) /\ letters_agree i j wx wy.
Proof.
  induction ns as [|n ns IH]; simpl; intros H y wy []; intros Hy.
  - subst n. rewrite Hy in H.
    destruct (overlaps cw x y) as [[i j]|]; [|discriminate].
    exists i, j. split; [reflexivity|]. unfold index in H.
    destruct (String.get i wx) as [c|] eqn:E1; simpl in H; [|discriminate].
    destruct (String.get j wy) as [c'|] eqn:E2; simpl in H; [|discriminate].
    destruct (Ascii.eqb c c') eqn:E; simpl in H; [|discriminate].
    apply Ascii.eqb_eq in E. subst. exists c'. split; assumption.
  - apply IH; try assumption.
    destruct (dict_get n a) as [wn|]; [|assumption].
    destruct (overlaps cw x n) as [[i j]|]; [|discriminate].
    destruct (index wx i); simpl in H; try discriminate.
    destruct (index wn j); simpl in H; try discriminate.
    destruct (negb (Ascii.eqb a0 a1)); [discriminate | assumption].
Qed.

Lemma consistent_items_true a items :
  consistent_items cw a items = Ok true ->
  forall x wx, In (x, wx) items ->
    var_length x = String.length wx
    /\ agrees_with_neighbors cw a x wx (neighbors cw x) = Ok true.
Proof.
  induction items as [|[v wv] items IH]; simpl; intros H x wx []; intros.
  - inversion H0; subst v wv; clear H0.
    destruct (var_length x =? String.length wx) eqn:L; simpl in H; [|discriminate].
    apply Nat.eqb_eq in L. split; [assumption|].
    destruct (agrees_with_neighbors cw a x wx (neighbors cw x)) as [[|]| |];
      simpl in H; congruence.
  - apply IH; [|assumption].
    destruct (var_length v =? String.length wv); simpl in H; [|discriminate].
    destruct (agrees_with_neighbors cw a v wv (neighbors cw v)) as [[|]| |];
      simpl in H; congruence.
Qed.

(** An assignment that passed both checks is a solution. *)
Lemma checked_solution a :
  well_formed cw = true -> checked cw a -> solution cw a.
Proof.
  intros WF [Hc Hk]. unfold assignment_complete in Hc.
  rewrite forallb_forall in Hc. unfold consistent in Hk.
  pose proof (consistent_items_true a a Hk) as K. split.
  - intros x Hx. specialize (Hc x Hx).
    destruct (dict_get x a) as [w|] eqn:E; [|discriminate].
    exists w. split; [reflexivity|].
    symmetry. now apply (K x w), dict_get_In.
  - intros x y i j wx wy Hx Hy N O Ex Ey.
    destruct (K x wx (dict_get_In _ _ _ Ex)) as [_ A].
    destruct (agrees_with_neighbors_true a x wx _ A y wy) as (i' & j' & O' & L);
      try assumption.
    + apply neighbors_In. repeat split; auto.
      now apply (wf_overlap cw WF x y i j).
    + congruence.
Qed.
End ConsistentFacts.

(** ** [backtrack] *)

Section BacktrackFacts.
Variable cw : Crossword.

Lemma try_values_step recur var a value rest d :
  try_values cw recur var a (value :: rest) d
  = match consistent cw (dict_set var value a) with
    | Ok true =>
        match ac3 cw (Some (map (fun n => (var, n)) (neighbors cw var))) d with
        | (Ok true, d1) => recur (dict_set var value a) d1
        | (Ok false, d1) => try_values cw recur var a rest d1
        | (Raise e, d1) => (Raise e, d1)
        | (OutOfFuel, d1) => (OutOfFuel, d1)
        end
    | Ok false => try_values cw recur var a rest d
    | Raise e => (Raise e, d)
    | OutOfFuel => (OutOfFuel, d)
    end.
Proof.
  simpl. unfold bind, reads.
  destruct (consistent cw (dict_set var value a)) as [[|]| |]; try reflexivity.
  destruct (ac3 cw _ d) as [[[|]| |] d1]; try reflexivity.
  unfold is_not_False, ret.
  destruct (recur (dict_set var value a) d1) as [[r| |] d2]; reflexivity.
Qed.

Lemma backtrack_rec_step fuel a d :
  backtrack_rec cw (S fuel) a d
  = if assignment_complete cw a then (Ok (Some a), d)
    else
      match select_unassigned_variable cw a d with
      | Ok (Some var) =>
          match order_domain_values cw (Some var) a d with
          | Ok values => try_values cw (backtrack_rec cw fuel) var a values d
          | Raise e => (Raise e, d)
          | OutOfFuel => (OutOfFuel, d)
          end
      | Ok None => (Raise KeyError, d)
      | Raise e => (Raise e, d)
      | OutOfFuel => (OutOfFuel, d)
      end.
Proof.
  simpl. destruct (assignment_complete cw a); [reflexivity|].
  unfold bind, reads.
  destruct (select_unassigned_variable cw a d) as [[var|]| |]; reflexivity.
Qed.

Lemma try_values_checked recur var a values :
  (forall a' d' r d'',
      consistent cw a' = Ok true ->
      recur a' d' = (Ok (Some r), d'') -> checked cw r) ->
  forall d r d',
    try_values cw recur var a values d = (Ok (Some r), d') -> checked cw r.
Proof.
  intros Hrec. induction values as [|value rest IH]; intros d r d' H.
  - simpl in H. discriminate.
  - rewrite try_values_step in H.
    destruct (consistent cw (dict_set var value a)) as [[|]| |] eqn:C;
      try discriminate; [|eauto].
    destruct (ac3 cw _ d) as [[[|]| |] d1]; try discriminate; eauto.
Qed.

Lemma backtrack_rec_checked fuel : forall a d r d',
  consistent cw a = Ok true ->
  backtrack_rec cw fuel a d = (Ok (Some r), d') -> checked cw r.
Proof.
  induction fuel as [|fuel IH]; intros a d r d' C H; [discriminate|].
  rewrite backtrack_rec_step in H.
  destruct (assignment_complete cw a) eqn:Hc.
  - inversion H; subst. now split.
  - destruct (select_unassigned_variable cw a d) as [[var|]| |]; try discriminate.
    destruct (order_domain_values cw (Some var) a d) as [values| |];
      try discriminate.
    eapply try_values_checked; [|eassumption].
    intros a' d1 r1 d2 C1 H1. eapply IH; eassumption.
Qed.
End BacktrackFacts.

(** C5: on a well-formed puzzle, an assignment returned by [solve] gives
    every slot a word of the slot's length, and the words of two
    overlapping slots agree at the shared cell. *)
Theorem solve_sound (cw : Crossword) (a : assignment) (d : domains)
    (WF : well_formed cw = true)
    (Hsolve : run_solve cw = (Ok (Some a), d)) :
  (forall x, In x (variables cw) ->
     exists w, dict_get x a = Some w /\ String.length w = var_length x)
  /\ (forall x y i j wx wy,
        In x (variables cw) -> In y (variables cw) -> x <> y ->
        overlaps cw x y = Some (i, j) ->
        dict_get x a = Some wx -> dict_get y a = Some wy ->
        letters_agree i j wx wy).
Proof.
  apply (checked_solution cw a WF).
  unfold run_solve, solve, bind in Hsolve.
  destruct (enforce_node_consistency cw (init_domains cw)) as [[[]| |] d0];
    try discriminate.
  destruct (ac3 cw None d0) as [[b| |] d1]; try discriminate.
  eapply backtrack_rec_checked; [|exact Hsolve]. reflexivity.
Qed.

Lemma solve_sound_witness :
  exists w, dict_get Examples.slot_B
              [(Examples.slot_A, "cat"%string); (Examples.slot_B, "top"%string)]
            = Some w
            /\ String.length w = 3.
Proof.
  refine (proj1 (solve_sound
                   (Examples.cat_top [Examples.slot_A; Examples.slot_B]
                      ["cat"; "top"]%string)
                   [(Examples.slot_A, "cat"%string); (Examples.slot_B, "top"%string)]
                   [(Examples.slot_A, ["cat"%string]); (Examples.slot_B, ["top"%string])]
                   _ _) Examples.slot_B _).
  - reflexivity.
  - vm_compute. reflexivity.
  - right. left. reflexivity.
Defined.

(** ** The solver never raises on a well-formed puzzle *)

Section NoRaise.
Variable cw : Crossword.
Hypothesis WF : well_formed cw = true.

Lemma revise_ok x y d :
  node_consistent cw d -> In x (variables cw) -> In y (variables cw) ->
  exists b d', revise cw x y d = (Ok b, d').
Proof.
  intros N Hx Hy.
  destruct (overlaps cw x y) as [[i j]|] eqn:O.
  - destruct (N x Hx) as (dx & Ex & Lx). destruct (N y Hy) as (dy & Ey & Ly).
    destruct (wf_overlap cw WF x y i j Hx Hy O) as (Hi & Hj & _).
    destruct (revise_in_range cw x y d i j dx dy O Ex Ey) as (b & d' & E & _).
    + intros w Hw. rewrite (Lx w Hw). exact Hi.
    + intros w Hw. rewrite (Ly w Hw). exact Hj.
    + eauto.
  - exists false, d. now apply revise_no_overlap.
Qed.

Lemma ac3_loop_no_raise fuel : forall q d e,
  node_consistent cw d ->
  (forall x y, In (x, y) q -> In x (variables cw) /\ In y (variables cw)) ->
  fst (ac3_loop cw fuel q d) <> Raise e.
Proof.
  induction fuel as [|fuel IH]; intros [|[x y] rest] d e N Q;
    try (simpl; discriminate).
  rewrite ac3_loop_step.
  destruct (Q x y (or_introl eq_refl)) as [Hx Hy].
  destruct (revise_ok x y d N Hx Hy) as (b & d' & E). rewrite E.
  pose proof (revise_shrinks cw x y d) as S. rewrite E in S. simpl in S.
  assert (node_consistent cw d') as N'
      by (eapply shrinks_node_consistent; eassumption).
  destruct b.
  - destruct (revise_revised_nonempty cw x y d d' E) as (dx & dx' & _ & Ex' & _).
    rewrite Ex'. destruct dx'; [simpl; discriminate|].
    apply IH; [assumption|].
    intros u v Huv. apply in_app_iff in Huv as [Huv|Huv]; [auto using in_cons|].
    unfold requeued in Huv. apply in_map_iff in Huv as (z & Ez & Hz).
    inversion Ez; subst. apply set_diff_var_In in Hz as [Hz _].
    apply neighbors_In in Hz. tauto.
  - apply IH; auto using in_cons.
Qed.

Lemma ac3_ok arcs d :
  node_consistent cw d ->
  (forall x y, In (x, y) (initial_queue cw arcs) ->
               In x (variables cw) /\ In y (variables cw)) ->
  exists b d', ac3 cw arcs d = (Ok b, d') /\ node_consistent cw d'.
Proof.
  intros N Q.
  assert (fst (ac3 cw arcs d) <> OutOfFuel) as T.
  { unfold ac3. apply ac3_loop_total. unfold potential, ac3_fuel. lia. }
  pose proof (ac3_loop_shrinks cw (ac3_fuel cw d (initial_queue cw arcs))
                (initial_queue cw arcs) d) as S.
  pose proof (fun e => ac3_loop_no_raise
                (ac3_fuel cw d (initial_queue cw arcs)) _ d e N Q) as R.
  unfold ac3 in *. fold (initial_queue cw arcs) in *.
  destruct (ac3_loop cw _ (initial_queue cw arcs) d) as [[b|e|] d'];
    simpl in *; [|destruct (R e); reflexivity|congruence].
  exists b, d'. split; [reflexivity|].
  eapply shrinks_node_consistent; eassumption.
Qed.

Lemma all_arcs_variables x y :
  In (x, y) (all_arcs cw) -> In x (variables cw) /\ In y (variables cw).
Proof.
  unfold all_arcs. rewrite in_flat_map. intros (v & Hv & H).
  apply in_map_iff in H as (n & E & Hn). inversion E; subst.
  apply neighbors_In in Hn. tauto.
Qed.

Lemma var_arcs_variables var x y :
  In var (variables cw) ->
  In (x, y) (map (fun n => (var, n)) (neighbors cw var)) ->
  In x (variables cw) /\ In y (variables cw).
Proof.
  intros Hv H. apply in_map_iff in H as (n & E & Hn). inversion E; subst.
  apply neighbors_In in Hn. tauto.
Qed.

Lemma agrees_with_neighbors_ok a x wx ns :
  typed cw a -> In x (variables cw) -> String.length wx = var_length x ->
  (forall y, In y ns -> In y (neighbors cw x)) ->
  exists b, agrees_with_neighbors cw a x wx ns = Ok b.
Proof.
  intros T Hx L. induction ns as [|n ns IH]; simpl; intros Hns; [eauto|].
  destruct (dict_get n a) as [wn|] eqn:En; [|auto using in_cons].
  assert (In n (neighbors cw x)) as Hn by auto using in_eq.
  apply neighbors_In in Hn as (Hn & _ & O).
  destruct (T n wn (dict_get_In _ _ _ En)) as [_ Ln].
  destruct (overlaps cw n x) as [[j' i']|] eqn:O'; [|congruence].
  destruct (wf_overlap cw WF n x j' i' Hn Hx O') as (_ & _ & O2).
  destruct (overlaps cw x n) as [[i j]|] eqn:O3; [|congruence].
  destruct (wf_overlap cw WF x n i j Hx Hn O3) as (Hi & Hj & _).
  rewrite <- L in Hi. rewrite <- Ln in Hj.
  destruct (index_in_range wx i Hi) as (c & -> & _).
  destruct (index_in_range wn j Hj) as (c' & -> & _). simpl.
  destruct (negb (Ascii.eqb c c')); [eauto | auto using in_cons].
Qed.

Lemma consistent_items_ok a items :
  typed cw a -> (forall p, In p items -> In p a) ->
  exists b, consistent_items cw a items = Ok b.
Proof.
  intros T. induction items as [|[x wx] items IH]; simpl; intros I; [eauto|].
  destruct (var_length x =? String.length wx) eqn:L; simpl; [|eauto].
  apply Nat.eqb_eq in L.
  destruct (T x wx (I _ (or_introl eq_refl))) as [Hx _].
  destruct (agrees_with_neighbors_ok a x wx (neighbors cw x) T Hx)
    as [b ->]; auto.
  simpl. destruct b; [auto using in_cons | eauto].
Qed.

Lemma consistent_ok a : typed cw a -> exists b, consistent cw a = Ok b.
Proof. intros T. apply consistent_items_ok; auto. Qed.

Lemma count_differ_ok i j word dn :
  i < String.length word ->
  (forall w, In w dn -> j < String.length w) ->
  exists k, count_differ i j word dn = Ok k.
Proof.
  intros Hi. induction dn as [|w dn IH]; simpl; intros Hj; [eauto|].
  destruct (index_in_range word i Hi) as (c & -> & _).
  destruct (index_in_range w j (Hj w (or_introl eq_refl))) as (c' & -> & _).
  simpl. destruct IH as [k ->]; [auto|]. simpl. eauto.
Qed.

Lemma ruled_out_ok d var word ns :
  node_consistent cw d -> In var (variables cw) ->
  String.length word = var_length var ->
  (forall n, In n ns -> In n (neighbors cw var)) ->
  exists k, ruled_out cw d var word ns = Ok k.
Proof.
  intros N Hv L. induction ns as [|n ns IH]; simpl; intros Hns; [eauto|].
  assert (In n (neighbors cw var)) as Hn by auto using in_eq.
  apply neighbors_In in Hn as (Hn & _ & O).
  destruct (overlaps cw n var) as [[j' i']|] eqn:O'; [|congruence].
  destruct (wf_overlap cw WF n var j' i' Hn Hv O') as (_ & _ & O2).
  destruct (overlaps cw var n) as [[i j]|] eqn:O3; [|congruence].
  destruct (wf_overlap cw WF var n i j Hv Hn O3) as (Hi & Hj & _).
  destruct (N n Hn) as (dn & En & Ln). unfold domain_of. rewrite En. simpl.
  destruct (count_differ_ok i j word dn) as [k ->].
  - now rewrite L.
  - intros w Hw. now rewrite (Ln w Hw).
  - simpl. destruct IH as [k' ->]; [auto|]. simpl. eauto.
Qed.

Lemma value_heuristic_ok d var a dv :
  node_consistent cw d -> In var (variables cw) ->
  (forall w, In w dv -> String.length w = var_length var) ->
  exists h, value_heuristic cw d var a dv = Ok h /\ map fst h = dv.
Proof.
  intros N Hv. induction dv as [|w dv IH]; simpl; intros L; [eauto|].
  destruct (ruled_out_ok d var w
              (set_diff variable_eqb (neighbors cw var) (dict_keys a)) N Hv)
    as [k ->]; auto.
  { intros n Hn. now apply set_diff_var_In in Hn. }
  simpl. destruct IH as (h & -> & E); [auto|]. simpl.
  eexists. split; [reflexivity|]. simpl. now rewrite E.
Qed.
End NoRaise.

Lemma insert_by_count_In p q l :
  In q (insert_by_count p l) <-> q = p \/ In q l.
Proof.
  induction l as [|r l IH]; simpl; [intuition|].
  destruct (snd p <=? snd r); simpl; [intuition|]. rewrite IH. intuition.
Qed.

Lemma sorted_by_count_In q l : In q (sorted_by_count l) <-> In q l.
Proof.
  induction l as [|p l IH]; simpl; [tauto|].
  rewrite insert_by_count_In, IH. intuition.
Qed.

Lemma order_domain_values_ok cw var a d :
  well_formed cw = true -> node_consistent cw d -> In var (variables cw) ->
  exists values,
    order_domain_values cw (Some var) a d = Ok values
    /\ forall w, In w values -> String.length w = var_length var.
Proof.
  intros WF N Hv. unfold order_domain_values, domain_of.
  destruct (N var Hv) as (dv & -> & L). simpl.
  destruct (value_heuristic_ok cw WF d var a dv N Hv L) as (h & -> & E). simpl.
  eexists. split; [reflexivity|]. intros w Hw.
  apply in_map_iff in Hw as ([w' k] & <- & Hp).
  apply (proj1 (sorted_by_count_In _ _)) in Hp.
  apply L. rewrite <- E. apply in_map_iff. exists (w', k).
  split; [reflexivity | assumption].
Qed.

(** ** [backtrack] returns *)

Lemma forallb_false {A} (f : A -> bool) (l : list A) :
  forallb f l = false <-> exists x, In x l /\ f x = false.
Proof.
  induction l as [|a l IH]; simpl.
  - split; [discriminate | intros (x & [] & _)].
  - rewrite andb_false_iff, IH. split.
    + intros [H|(x & Hx & H)]; eauto.
    + intros (x & [->|Hx] & H); eauto.
Qed.

Lemma dict_mem_false {V} k (d : dict V) : dict_mem k d = false <-> dict_get k d = None.
Proof. unfold dict_mem. destruct (dict_get k d); split; congruence. Qed.

Lemma dict_set_In {V} k (v : V) d p :
  In p (dict_set k v d) -> In p d \/ p = (k, v).
Proof.
  induction d as [|[k' v'] d IH]; simpl.
  - intros [<-|[]]. now right.
  - destruct (variable_eqb k k') eqn:E; simpl.
    + apply variable_eqb_eq in E. subst. intros [<-|H]; auto.
    + intros [<-|H]; auto. destruct (IH H); auto.
Qed.

Section BacktrackTotal.
Variable cw : Crossword.
Hypothesis WF : well_formed cw = true.

Lemma typed_set a var value :
  typed cw a -> In var (variables cw) ->
  String.length value = var_length var ->
  typed cw (dict_set var value a).
Proof.
  intros T Hv L x w H. apply dict_set_In in H as [H|H]; [now apply T|].
  inversion H; subst. auto.
Qed.

Lemma unassigned_count_set a var value :
  In var (variables cw) -> dict_mem var a = false ->
  unassigned_count cw (dict_set var value a) < unassigned_count cw a.
Proof.
  intros Hv Hm. unfold unassigned_count.
  rewrite (dict_keys_set_new var value a) by now apply dict_mem_false.
  unfold set_diff.
  replace (filter (fun x => negb (set_mem variable_eqb x (dict_keys a ++ [var])))
                  (variables cw))
    with (filter (fun x => negb (variable_eqb x var))
                 (filter (fun x => negb (set_mem variable_eqb x (dict_keys a)))
                         (variables cw))).
  - apply filter_length_lt with (a := var).
    + apply filter_In. split; [assumption|]. apply negb_true_iff.
      destruct (set_mem variable_eqb var (dict_keys a)) eqn:E; [|reflexivity].
      apply set_mem_var, dict_mem_keys in E. congruence.
    + now rewrite variable_eqb_refl.
  - rewrite filter_twice. apply filter_ext. intros x.
    unfold set_mem. rewrite existsb_app. simpl.
    rewrite orb_false_r, negb_orb. apply andb_comm.
Qed.

Lemma incomplete_unassigned a :
  typed cw a -> assignment_complete cw a = false ->
  exists x, In x (variables cw) /\ dict_mem x a = false.
Proof.
  intros T H. apply forallb_false in H as (x & Hx & H).
  exists x. split; [assumption|]. apply dict_mem_false.
  destruct (dict_get x a) as [w|] eqn:E; [|reflexivity].
  apply negb_false_iff, Nat.eqb_eq in H.
  destruct (T x w (dict_get_In _ _ _ E)) as [_ L].
  pose proof (wf_length cw WF x Hx). lia.
Qed.

Lemma try_values_ok recur var a values k :
  (forall a' d', typed cw a' -> node_consistent cw d' ->
                 unassigned_count cw a' < k ->
                 exists r d'', recur a' d' = (Ok r, d'')
                               /\ node_consistent cw d'') ->
  typed cw a -> In var (variables cw) -> dict_mem var a = false ->
  unassigned_count cw a <= k ->
  (forall w, In w values -> String.length w = var_length var) ->
  forall d, node_consistent cw d ->
    exists r d', try_values cw recur var a values d = (Ok r, d')
                 /\ node_consistent cw d'.
Proof.
  intros Hrec T Hv Hm Hk.
  induction values as [|value rest IH]; intros L d N.
  - exists None, d. now split.
  - rewrite try_values_step.
    assert (typed cw (dict_set var value a)) as T'
        by (apply typed_set; auto using in_eq).
    destruct (consistent_ok cw WF _ T') as [b ->].
    destruct b; [|apply IH; auto using in_cons].
    destruct (ac3_ok cw WF (Some (map (fun n => (var, n)) (neighbors cw var))) d N)
      as (b & d1 & -> & N1).
    { intros x y. now apply var_arcs_variables. }
    destruct b; [|apply IH; auto using in_cons].
    apply Hrec; try assumption.
    pose proof (unassigned_count_set a var value Hv Hm). lia.
Qed.

Lemma backtrack_rec_ok fuel : forall a d,
  typed cw a -> node_consistent cw d -> unassigned_count cw a < fuel ->
  exists r d', backtrack_rec cw fuel a d = (Ok r, d')
               /\ node_consistent cw d'.
Proof.
  induction fuel as [|fuel IH]; intros a d T N Hk; [lia|].
  rewrite backtrack_rec_step.
  destruct (assignment_complete cw a) eqn:C; [eauto|].
  destruct (select_unassigned_variable_some cw a d)
    as (var & -> & Hv & Hm & _).
  { intros x Hx. destruct (N x Hx) as (s & -> & _). discriminate. }
  { now apply incomplete_unassigned. }
  destruct (order_domain_values_ok cw var a d WF N Hv) as (values & -> & L).
  apply try_values_ok with (k := fuel); auto; lia.
Qed.
End BacktrackTotal.

(** A store with an empty domain: the slot picked has no word left and the
    search gives up at once. *)
Lemma backtrack_empty_domain cw d x :
  (forall v, In v (variables cw) -> dict_get v d <> None) ->
  In x (variables cw) -> dict_get x d = Some [] ->
  backtrack cw [] d = (Ok None, d).
Proof.
  intros Hstore Hx Ex. unfold backtrack. rewrite backtrack_rec_step.
  assert (assignment_complete cw [] = false) as ->.
  { apply forallb_false. exists x. now split. }
  destruct (select_unassigned_variable_some cw [] d Hstore)
    as (v & -> & Hv & _ & Hbest).
  { exists x. now split. }
  destruct (Hbest x Hx eq_refl) as [Hlen _].
  unfold domain in Hlen. rewrite Ex in Hlen. simpl in Hlen.
  unfold order_domain_values, domain_of.
  destruct (dict_get v d) as [[|w s]|] eqn:Ev;
    [reflexivity | simpl in Hlen; lia | destruct (Hstore v Hv Ev)].
Qed.

Lemma solve_total cw :
  well_formed cw = true -> exists r d, run_solve cw = (Ok r, d).
Proof.
  intros WF. unfold run_solve, solve, bind.
  rewrite enforce_node_consistency_init
    by (auto using wf_nodup_variables, wf_nodup_words).
  destruct (ac3_ok cw WF None (node_filtered cw)) as (b & d1 & -> & N1).
  - apply node_filtered_consistent.
  - apply all_arcs_variables.
  - destruct (backtrack_rec_ok cw WF (S (List.length (variables cw))) [] d1)
      as (r & d2 & E & _); try assumption.
    + intros x w [].
    + unfold unassigned_count. pose proof (filter_length_le
        (fun a => negb (set_mem variable_eqb a (dict_keys (@nil (variable * string)))))
        (variables cw)). unfold set_diff. lia.
    + unfold backtrack. rewrite E. eauto.
Qed.

Lemma solve_after_failed_ac3 cw d1 :
  well_formed cw = true ->
  ac3 cw None (node_filtered cw) = (Ok false, d1) ->
  run_solve cw = (Ok None, d1).
Proof.
  intros WF H. unfold run_solve, solve, bind.
  rewrite enforce_node_consistency_init
    by (auto using wf_nodup_variables, wf_nodup_words).
  rewrite H.
  assert (ac3_run cw (all_arcs cw) (node_filtered cw) false d1) as R
      by (apply ac3_loop_run in H; exact H).
  destruct (proj1 (ac3_run_false cw _ _ _ _ R) eq_refl) as (x & w & s & E0 & E1).
  pose proof (ac3_loop_shrinks cw (ac3_fuel cw (node_filtered cw) (all_arcs cw))
                (all_arcs cw) (node_filtered cw)) as S.
  unfold ac3 in H. rewrite H in S. simpl in S.
  pose proof (shrinks_node_consistent cw _ _ S (node_filtered_consistent cw)) as N1.
  apply backtrack_empty_domain with (x := x); [| |assumption].
  - intros v Hv. destruct (N1 v Hv) as (sv & -> & _). discriminate.
  - assert (In x (dict_keys (node_filtered cw))) as K
        by (apply dict_get_In_keys; congruence).
    unfold node_filtered, dict_keys in K. rewrite map_map in K. simpl in K.
    now rewrite map_id in K.
Qed.

(** C9: on a well-formed puzzle [solve] comes to an end without raising,
    with a dictionary or [None].  It does not look at the answer of the
    first [ac3] pass: when that pass reports failure, the search starts
    all the same and returns [None].  On any store that has a domain for
    every slot, one of them empty, [backtrack] from the empty assignment
    returns [None] without raising and leaves the store as it is. *)
Theorem solve_never_raises (cw : Crossword) (WF : well_formed cw = true) :
  (exists r d, run_solve cw = (Ok r, d))
  /\ (forall d1, ac3 cw None (node_filtered cw) = (Ok false, d1) ->
                 run_solve cw = (Ok None, d1))
  /\ (forall d x,
        (forall v, In v (variables cw) -> dict_get v d <> None) ->
        In x (variables cw) -> dict_get x d = Some [] ->
        backtrack cw [] d = (Ok None, d)).
Proof.
  split; [now apply solve_total|].
  split; [intros d1; now apply solve_after_failed_ac3|].
  intros d x. apply backtrack_empty_domain.
Qed.

Lemma solve_never_raises_witness :
  run_solve Examples.cat_dog
  = (Ok None, [(Examples.slot_A, []);
               (Examples.slot_B, ["cat"; "dog"]%string)]).
Proof.
  refine (proj1 (proj2 (solve_never_raises Examples.cat_dog _)) _ _).
  - reflexivity.
  - vm_compute. reflexivity.
Defined.

(** ** [backtrack] and the domain store *)

Lemma any_agree_match i j w dy :
  has_match i j w dy = true ->
  any_agree i j w dy = Ok true \/ exists e, any_agree i j w dy = Raise e.
Proof.
  induction dy as [|w2 dy IH]; simpl; [discriminate|].
  unfold index. destruct (String.get i w) as [c|]; simpl; [|eauto].
  destruct (String.get j w2) as [c'|]; simpl; [|eauto].
  destruct (Ascii.eqb c c'); simpl; auto.
Qed.


Section StoreFacts.
Variable cw : Crossword.



Lemma ac3_shrinks arcs d : shrinks d (snd (ac3 cw arcs d)).
Proof. unfold ac3. apply ac3_loop_shrinks. Qed.

Lemma try_values_shrinks recur var a values :
  (forall a' d', shrinks d' (snd (recur a' d'))) ->
  forall d, shrinks d (snd (try_values cw recur var a values d)).
Proof.
  intros Hrec. induction values as [|value rest IH]; intros d.
  - apply shrinks_refl.
  - rewrite try_values_step.
    destruct (consistent cw (dict_set var value a)) as [[|]| |];
      try apply shrinks_refl; [|apply IH].
    pose proof (ac3_shrinks (Some (map (fun n => (var, n)) (neighbors cw var))) d) as S.
    destruct (ac3 cw _ d) as [[[|]| |] d1]; simpl in S; try assumption;
      (eapply shrinks_trans; [exact S|]); auto.
Qed.

Lemma backtrack_rec_shrinks fuel : forall a d,
  shrinks d (snd (backtrack_rec cw fuel a d)).
Proof.
  induction fuel as [|fuel IH]; intros a d; [apply shrinks_refl|].
  rewrite backtrack_rec_step.
  destruct (assignment_complete cw a); [apply shrinks_refl|].
  destruct (select_unassigned_variable cw a d) as [[var|]| |];
    try apply shrinks_refl.
  destruct (order_domain_values cw (Some var) a d) as [values| |];
    try apply shrinks_refl.
  now apply try_values_shrinks.
Qed.


End StoreFacts.

(** ** The examples of the specification *)

(** C4: with slot A and slot B of three cells, the last cell of A being the
    first of B, and the words cat and top, [solve] returns the dictionary
    that maps A to cat and B to top, in whichever order the two slots and
    the two words are iterated. *)
Theorem solve_cat_top (vars : list variable) (ws : list string)
    (Hvars : In vars [[Examples.slot_A; Examples.slot_B];
                      [Examples.slot_B; Examples.slot_A]])
    (Hws : In ws [["cat"; "top"]; ["top"; "cat"]]%string) :
  exists a d,
    run_solve (Examples.cat_top vars ws) = (Ok (Some a), d)
    /\ List.length a = 2
    /\ forall x, dict_get x a
                 = dict_get x [(Examples.slot_A, "cat"%string);
                               (Examples.slot_B, "top"%string)].
Proof.
  destruct Hvars as [<-|[<-|[]]]; destruct Hws as [<-|[<-|[]]];
    (eexists; eexists; split; [vm_compute; reflexivity|]);
    (split; [reflexivity|]); intros x; try reflexivity;
    unfold Examples.slot_A, Examples.slot_B; cbn [dict_get];
    destruct (variable_eqb x (Var 0 0 ACROSS 3)) eqn:EA;
    destruct (variable_eqb x (Var 0 2 DOWN 3)) eqn:EB; try reflexivity;
    apply variable_eqb_eq in EA; apply variable_eqb_eq in EB; subst;
    discriminate.
Qed.

Lemma solve_cat_top_witness :
  exists a d,
    run_solve (Examples.cat_top [Examples.slot_B; Examples.slot_A]
                 ["top"; "cat"]%string) = (Ok (Some a), d)
    /\ List.length a = 2
    /\ forall x, dict_get x a
                 = dict_get x [(Examples.slot_A, "cat"%string);
                               (Examples.slot_B, "top"%string)].
Proof.
  apply solve_cat_top.
  - right. left. reflexivity.
  - right. left. reflexivity.
Defined.

(** C1 fails on the arch puzzle: it is well formed and has a complete and
    consistent assignment, and [solve] returns [None].  The search gives
    the two hanging slots the word AX, finds no word for the top slot, and
    the caller takes the [None] of the recursive call for an answer
    ([None is not False]) instead of trying its next word. *)
Theorem solve_misses_solution :
  well_formed Examples.arch = true
  /\ solution Examples.arch Examples.arch_solution
  /\ fst (run_solve Examples.arch) = Ok None.
Proof.
  split; [reflexivity|]. split; [|vm_compute; reflexivity].
  apply checked_solution; [reflexivity|].
  split; vm_compute; reflexivity.
Qed.

(** ** [ac3] reaches arc consistency *)

Lemma any_agree_true i j w dy :
  any_agree i j w dy = Ok true -> has_match i j w dy = true.
Proof.
  induction dy as [|w2 dy IH]; simpl; [discriminate|].
  unfold index. destruct (String.get i w) as [c|]; simpl; [|discriminate].
  destruct (String.get j w2) as [c'|]; simpl; [|discriminate].
  destruct (Ascii.eqb c c'); simpl; auto.
Qed.

(** What a normal end of the loop of [revise] says about each word. *)
Lemma words_remove_ok d i j y dx rm :
  words_remove d i j y dx = Ok rm ->
  forall w, In w dx ->
    exists b, any_agree i j w (domain d y) = Ok b /\ (b = false <-> In w rm).
Proof.
  revert rm. induction dx as [|w0 dx IH]; simpl; intros rm H w Hin;
    [destruct Hin|].
  unfold domain_of in H.
  destruct (dict_get y d) as [dy|] eqn:Ey; simpl in H; [|discriminate].
  assert (domain d y = dy) as Dy by (unfold domain; now rewrite Ey).
  destruct (any_agree i j w0 dy) as [b0| |] eqn:A0; simpl in H; try discriminate.
  destruct (words_remove d i j y dx) as [rest| |] eqn:R; simpl in H;
    try discriminate.
  inversion H; subst rm; clear H. specialize (IH rest eq_refl).
  rewrite Dy in *.
  assert (forall w', In w' rest -> any_agree i j w' dy = Ok false) as Rest.
  { intros w' Hw'.
    destruct (IH w' (words_remove_incl _ _ _ _ _ _ R w' Hw')) as (b & A & I).
    rewrite A. f_equal. now apply I. }
  destruct Hin as [->|Hin].
  - exists b0. split; [assumption|]. destruct b0.
    + split; [discriminate|]. intros Hr. apply Rest in Hr. congruence.
    + split; [now left | reflexivity].
  - destruct (IH w Hin) as (b & A & I). exists b. split; [assumption|].
    destruct b0; [exact I|]. rewrite I. simpl. split; [auto|].
    intros [E|Hr]; [|assumption]. subst w0. apply I. congruence.
Qed.

Section Ac3Correct.
Variable cw : Crossword.
Hypothesis WF : well_formed cw = true.
Hypothesis SYM : overlaps_symmetric cw = true.

Lemma overlaps_swap x y i j :
  In x (variables cw) -> In y (variables cw) ->
  overlaps cw x y = Some (i, j) -> overlaps cw y x = Some (j, i).
Proof.
  intros Hx Hy O. unfold overlaps_symmetric in SYM.
  rewrite forallb_forall in SYM. specialize (SYM x Hx).
  rewrite forallb_forall in SYM. specialize (SYM y Hy). rewrite O in SYM.
  destruct (overlaps cw y x) as [[j' i']|]; [|discriminate].
  apply andb_true_iff in SYM as [E1 E2].
  apply Nat.eqb_eq in E1, E2. now subst.
Qed.

Lemma neighbors_sym x y :
  In x (variables cw) -> In y (neighbors cw x) -> In x (neighbors cw y).
Proof.
  intros Hx Hy. apply neighbors_In in Hy as (Hy & N & O).
  apply neighbors_In. repeat split; auto.
  destruct (overlaps cw y x) as [[j i]|] eqn:E; [|congruence].
  now destruct (wf_overlap cw WF y x j i Hy Hx E) as (_ & _ & ?).
Qed.

Lemma revise_unrevised_settled x y d d' :
  revise cw x y d = (Ok false, d') -> arc_settled cw d x y.
Proof.
  intros H i j O w Hw. unfold revise in H. rewrite O in H.
  unfold domain_of in H. unfold domain in Hw.
  destruct (dict_get x d) as [dx|]; simpl in H; [|destruct Hw].
  destruct (words_remove d i j y dx) as [rm| |] eqn:R; simpl in H;
    try discriminate.
  destruct rm as [|r rm]; simpl in H; [|discriminate].
  destruct (words_remove_ok _ _ _ _ _ _ R w Hw) as (b & A & I).
  destruct b; [now apply any_agree_true|]. destruct (proj1 I eq_refl).
Qed.

(** A revision of [(x, y)] that removed words leaves settled every arc
    that was settled, except the arcs into [x] from slots other than
    [y]. *)
Lemma revise_revised_inv x y rest d d' :
  In x (variables cw) -> In y (neighbors cw x) ->
  revise cw x y d = (Ok true, d') ->
  queue_inv cw ((x, y) :: rest) d ->
  queue_inv cw (rest ++ requeued cw x y) d'.
Proof.
  intros Hx Hy E Q u v Hu Hv.
  destruct (revise_cases cw x y d)
    as [H|[[e H]|(i & j & dx & rm & O & Ex & R & Hn & H)]];
    rewrite H in E; inversion E; subst d'; clear E H.
  pose proof (neighbors_In cw x y) as Ny. apply Ny in Hy as (Hyv & Nyx & _).
  assert (forall z, z <> x ->
            domain (dict_set x (set_diff String.eqb dx rm) d) z = domain d z) as Fr.
  { intros z Hz. unfold domain. now rewrite dict_get_set_other. }
  assert (domain (dict_set x (set_diff String.eqb dx rm) d) x
          = set_diff String.eqb dx rm) as Dx
      by (unfold domain; now rewrite dict_get_set_same).
  assert (domain d x = dx) as Dx0 by (unfold domain; now rewrite Ex).
  assert (forall w, In w (set_diff String.eqb dx rm) ->
            In w dx /\ has_match i j w (domain d y) = true) as Kept.
  { intros w Hw. apply set_diff_str_In in Hw as [Hw Hr]. split; [assumption|].
    destruct (words_remove_ok _ _ _ _ _ _ R w Hw) as (b & A & I).
    destruct b; [now apply any_agree_true|]. destruct Hr. now apply I. }
  destruct (variable_eqb u x) eqn:Eu.
  - apply variable_eqb_eq in Eu. subst u.
    destruct (variable_eqb v y) eqn:Ev.
    + apply variable_eqb_eq in Ev. subst v. right.
      intros i0 j0 O0 w Hw. rewrite O in O0. inversion O0; subst i0 j0.
      rewrite Dx in Hw. rewrite Fr by assumption. now apply Kept.
    + apply variable_eqb_neq in Ev.
      destruct (Q x v Hu Hv) as [[C|Hin]|S].
      * inversion C. congruence.
      * left. apply in_or_app. now left.
      * right. intros i0 j0 O0 w Hw. rewrite Dx in Hw.
        apply neighbors_In in Hv as (_ & Nv & _).
        rewrite Fr by assumption. apply (S i0 j0 O0). rewrite Dx0.
        now apply Kept.
  - apply variable_eqb_neq in Eu.
    destruct (Q u v Hu Hv) as [[C|Hin]|S].
    + inversion C. congruence.
    + left. apply in_or_app. now left.
    + destruct (variable_eqb v x) eqn:Ev.
      * apply variable_eqb_eq in Ev. subst v.
        destruct (variable_eqb u y) eqn:Euy.
        -- apply variable_eqb_eq in Euy. subst u. right.
           intros j0 i0 O0 w2 Hw2.
           rewrite (overlaps_swap x y i j Hx Hyv O) in O0.
           inversion O0; subst i0 j0.
           rewrite Fr in Hw2 by assumption. rewrite Dx.
           pose proof (S j i (overlaps_swap x y i j Hx Hyv O) w2 Hw2) as M.
           apply has_match_iff in M as (w & Hw & L). rewrite Dx0 in Hw.
           apply has_match_iff. exists w. split; [|exact L].
           apply set_diff_str_In. split; [assumption|]. intros Hr.
           destruct (words_remove_ok _ _ _ _ _ _ R w Hw) as (b & A & I).
           apply I in Hr. subst b.
           destruct (any_agree_match i j w (domain d y)) as [T|[e T]];
             [|congruence|congruence].
           apply has_match_iff. exists w2. split; [assumption|].
           destruct L as (c & L1 & L2). exists c. auto.
        -- apply variable_eqb_neq in Euy. left. apply in_or_app. right.
           unfold requeued. apply in_map_iff. exists u. split; [reflexivity|].
           apply set_diff_var_In. split.
           ++ now apply neighbors_sym.
           ++ intros [C|[]]. congruence.
      * apply variable_eqb_neq in Ev. right.
        intros i0 j0 O0 w Hw. rewrite Fr in * by assumption.
        now apply (S i0 j0 O0).
Qed.

Lemma ac3_run_arc_consistent q d b d' :
  ac3_run cw q d b d' -> b = true ->
  (forall x y, In (x, y) q -> In x (variables cw) /\ In y (neighbors cw x)) ->
  queue_inv cw q d -> arc_consistent cw d'.
Proof.
  induction 1 as [d|x y rest d d1 b d2 E R IH|x y rest d d1 E Ex
                 |x y rest d d1 w s b d2 E Ex R IH]; intros Hb A Q.
  - intros x y i j Hx Hy O. destruct (Q x y Hx Hy) as [[]|S]. now apply S.
  - assert (d1 = d) by (eapply revise_not_revised; [eassumption | discriminate]).
    subst d1. apply IH; auto using in_cons.
    intros u v Hu Hv. destruct (Q u v Hu Hv) as [[C|Hin]|S]; auto.
    inversion C; subst. right. eapply revise_unrevised_settled; eassumption.
  - discriminate.
  - destruct (A x y (or_introl eq_refl)) as [Hx Hy].
    rewrite <- requeued_filter in IH. apply IH; auto.
    + intros u v H. apply in_app_iff in H as [H|H]; [auto using in_cons|].
      unfold requeued in H. apply in_map_iff in H as (z & Ez & Hz).
      inversion Ez; subst. apply set_diff_var_In in Hz as [Hz _].
      split; [now apply neighbors_In in Hz | now apply neighbors_sym].
    + eapply revise_revised_inv; eassumption.
Qed.

Lemma ac3_all_arc_consistent d d' :
  ac3 cw None d = (Ok true, d') -> arc_consistent cw d'.
Proof.
  intros H. unfold ac3 in H. apply ac3_loop_run in H.
  eapply ac3_run_arc_consistent; [exact H | reflexivity | |].
  - intros x y Hxy. unfold all_arcs in Hxy. apply in_flat_map in Hxy as (u & Hu & Hxy).
    apply in_map_iff in Hxy as (n & En & Hn). inversion En; subst. auto.
  - intros x y Hx Hy. left. unfold all_arcs. apply in_flat_map.
    exists x. split; [assumption|]. apply in_map_iff. eauto.
Qed.

End Ac3Correct.

(** ** The counterexamples hold for every order of iteration *)

Lemma inserts_In {A} (a : A) (l1 l2 : list A) :
  In (l1 ++ a :: l2) (inserts a (l1 ++ l2)).
Proof.
  induction l1 as [|b l1 IH]; simpl.
  - destruct l2; simpl; auto.
  - right. apply in_map. exact IH.
Qed.

Lemma perms_complete {A} (l : list A) :
  forall l', Permutation l l' -> In l' (perms l).
Proof.
  induction l as [|a l IH]; intros l' P.
  - apply Permutation_nil in P. subst. now left.
  - assert (In a l') as Ha by (eapply Permutation_in; [exact P | now left]).
    apply in_split in Ha as (l1 & l2 & ->).
    apply Permutation_cons_app_inv in P.
    simpl. apply in_flat_map. exists (l1 ++ l2).
    split; [now apply IH | apply inserts_In].
Qed.

Lemma arch_misses_all :
  forallb (fun vars => forallb (arch_misses vars) (perms Examples.arch_words))
          (perms [Examples.top; Examples.left; Examples.right]) = true.
Proof. vm_compute. reflexivity. Qed.

(** However the three slots and the seven words of the arch puzzle are
    listed, the puzzle has a solution and [solve] returns [None]. *)
Lemma solve_misses_solution_any_order vars ws :
  Permutation [Examples.top; Examples.left; Examples.right] vars ->
  Permutation Examples.arch_words ws ->
  well_formed (grid_crossword vars ws) = true
  /\ solution (grid_crossword vars ws) Examples.arch_solution
  /\ fst (run_solve (grid_crossword vars ws)) = Ok None.
Proof.
  intros Pv Pw. pose proof arch_misses_all as H.
  rewrite forallb_forall in H. specialize (H vars (perms_complete _ _ Pv)).
  rewrite forallb_forall in H. specialize (H ws (perms_complete _ _ Pw)).
  unfold arch_misses in H. rewrite !andb_true_iff in H.
  destruct H as [[[WF C] K] N]. split; [exact WF|]. split.
  - apply checked_solution; [exact WF|]. split; [exact C|].
    destruct (consistent _ _) as [[|]| |]; try discriminate. reflexivity.
  - destruct (fst (run_solve _)) as [[r|]| |]; try discriminate. reflexivity.
Qed.

Lemma cat_dog_loses_all :
  forallb (fun vars => forallb (cat_dog_loses vars) (perms ["cat"; "dog"]%string))
          (perms [Examples.slot_A; Examples.slot_B]) = true.
Proof. vm_compute. reflexivity. Qed.

(** However the two slots and the two words are listed, the failing call
    of [backtrack] leaves a slot without the words it had. *)
Lemma backtrack_failure_keeps_removals_any_order vars ws :
  Permutation [Examples.slot_A; Examples.slot_B] vars ->
  Permutation ["cat"; "dog"]%string ws ->
  let cw := grid_crossword vars ws in
  fst (backtrack cw [] (node_filtered cw)) = Ok None
  /\ exists x, In x vars
               /\ domain (snd (backtrack cw [] (node_filtered cw))) x = []
               /\ domain (node_filtered cw) x <> [].
Proof.
  intros Pv Pw cw. pose proof cat_dog_loses_all as H.
  rewrite forallb_forall in H. specialize (H vars (perms_complete _ _ Pv)).
  rewrite forallb_forall in H. specialize (H ws (perms_complete _ _ Pw)).
  unfold cat_dog_loses in H. fold cw in H.
  apply andb_true_iff in H as [N E]. split.
  - destruct (fst (backtrack cw [] (node_filtered cw))) as [[r|]| |];
      try discriminate. reflexivity.
  - apply existsb_exists in E as (x & Hx & E).
    apply andb_true_iff in E as [E1 E2]. exists x. split; [assumption|].
    split.
    + destruct (domain (snd (backtrack cw [] (node_filtered cw))) x);
        [reflexivity | discriminate].
    + intros C. rewrite C in E2. discriminate.
Qed.

(** ** The step budget of [backtrack] is never exhausted *)

Section BacktrackFuel.
Variable cw : Crossword.

Lemma agrees_with_neighbors_fuel a x wx ns :
  agrees_with_neighbors cw a x wx ns <> OutOfFuel.
Proof.
  induction ns as [|n ns IH]; simpl; [discriminate|].
  destruct (dict_get n a) as [wn|]; [|assumption].
  destruct (overlaps cw x n) as [[i j]|]; [|discriminate].
  unfold index. destruct (String.get i wx); simpl; [|discriminate].
  destruct (String.get j wn); simpl; [|discriminate].
  destruct (negb _); [discriminate | assumption].
Qed.

Lemma consistent_items_fuel a items : consistent_items cw a items <> OutOfFuel.
Proof.
  induction items as [|[x wx] items IH]; simpl; [discriminate|].
  destruct (negb _); [discriminate|].
  pose proof (agrees_with_neighbors_fuel a x wx (neighbors cw x)).
  destruct (agrees_with_neighbors cw a x wx (neighbors cw x)) as [[|]| |];
    simpl; congruence.
Qed.

Lemma count_differ_fuel i j word dn : count_differ i j word dn <> OutOfFuel.
Proof.
  induction dn as [|w dn IH]; simpl; [discriminate|].
  unfold index. destruct (String.get i word); simpl; [|discriminate].
  destruct (String.get j w); simpl; [|discriminate].
  destruct (count_differ i j word dn); simpl; congruence.
Qed.

Lemma ruled_out_fuel d var word ns : ruled_out cw d var word ns <> OutOfFuel.
Proof.
  induction ns as [|n ns IH]; simpl; [discriminate|].
  destruct (overlaps cw var n) as [[i j]|]; [|discriminate].
  unfold domain_of. destruct (dict_get n d) as [dn|]; simpl; [|discriminate].
  pose proof (count_differ_fuel i j word dn).
  destruct (count_differ i j word dn); simpl; try congruence.
  destruct (ruled_out cw d var word ns); simpl; congruence.
Qed.

Lemma value_heuristic_fuel d var a dv : value_heuristic cw d var a dv <> OutOfFuel.
Proof.
  induction dv as [|w dv IH]; simpl; [discriminate|].
  pose proof (ruled_out_fuel d var w
                (set_diff variable_eqb (neighbors cw var) (dict_keys a))).
  destruct (ruled_out cw d var w _); simpl; try congruence.
  destruct (value_heuristic cw d var a dv); simpl; congruence.
Qed.

Lemma order_domain_values_fuel var a d :
  order_domain_values cw var a d <> OutOfFuel.
Proof.
  destruct var as [var|]; simpl; [|discriminate].
  unfold domain_of. destruct (dict_get var d) as [dv|]; simpl; [|discriminate].
  pose proof (value_heuristic_fuel d var a dv).
  destruct (value_heuristic cw d var a dv); simpl; congruence.
Qed.

Lemma selection_loop_fuel d vars : forall s, selection_loop cw d s vars <> OutOfFuel.
Proof.
  induction vars as [|var vars IH]; simpl; intros s; [discriminate|].
  unfold selection_step at 1, domain_of.
  destruct (dict_get var d); simpl; [apply IH | discriminate].
Qed.

Lemma select_unassigned_variable_fuel a d :
  select_unassigned_variable cw a d <> OutOfFuel.
Proof.
  unfold select_unassigned_variable.
  pose proof (selection_loop_fuel d
                (set_diff variable_eqb (variables cw) (dict_keys a))
                {| unassigned_var := None; min_num_var := None;
                   max_degree := (-1)%Z |}).
  destruct (selection_loop cw d _ _); simpl; congruence.
Qed.

Lemma try_values_fuel recur var a values k :
  (forall a' d', unassigned_count cw a' < k -> fst (recur a' d') <> OutOfFuel) ->
  In var (variables cw) -> dict_mem var a = false ->
  unassigned_count cw a <= k ->
  forall d, fst (try_values cw recur var a values d) <> OutOfFuel.
Proof.
  intros Hrec Hv Hm Hk. induction values as [|value rest IH]; intros d.
  - simpl. discriminate.
  - rewrite try_values_step.
    pose proof (consistent_items_fuel (dict_set var value a) (dict_set var value a)) as C.
    unfold consistent.
    destruct (consistent_items cw _ _) as [[|]|e|]; simpl;
      try discriminate; try congruence; try apply IH.
    assert (fst (ac3 cw (Some (map (fun n => (var, n)) (neighbors cw var))) d)
            <> OutOfFuel) as T.
    { unfold ac3. apply ac3_loop_total. unfold potential, ac3_fuel. lia. }
    destruct (ac3 cw _ d) as [[[|]|e|] d1]; simpl in T; simpl;
      try discriminate; try congruence; try apply IH.
    apply Hrec. pose proof (unassigned_count_set cw a var value Hv Hm). lia.
Qed.

Lemma backtrack_rec_fuel fuel : forall a d,
  unassigned_count cw a < fuel -> fst (backtrack_rec cw fuel a d) <> OutOfFuel.
Proof.
  induction fuel as [|fuel IH]; intros a d Hk; [lia|].
  rewrite backtrack_rec_step.
  destruct (assignment_complete cw a); [discriminate|].
  pose proof (select_unassigned_variable_fuel a d) as F.
  destruct (select_unassigned_variable cw a d) as [[var|]|e|] eqn:E;
    try discriminate; try congruence.
  pose proof (order_domain_values_fuel (Some var) a d) as G.
  destruct (order_domain_values cw (Some var) a d) as [values|e|];
    try discriminate; try congruence.
  destruct (select_unassigned_variable_inv cw d a _ E) as (Hv & Hm & _).
  apply try_values_fuel with (k := fuel); auto. lia.
Qed.

(** Whatever the puzzle, the assignment and the store, a call of
    [backtrack] ends within its budget. *)
Lemma backtrack_fuel a d : fst (backtrack cw a d) <> OutOfFuel.
Proof.
  unfold backtrack. apply backtrack_rec_fuel. unfold unassigned_count, set_diff.
  pose proof (filter_length_le
                (fun x => negb (set_mem variable_eqb x (dict_keys a)))
                (variables cw)). lia.
Qed.
End BacktrackFuel.

(** ** [backtrack] and the candidates it abandons *)

Section Abandon.
Variable cw : Crossword.






End Abandon.




(** * Further properties of the solver *)

(** ** [order_domain_values] *)

Lemma insert_by_count_perm p l : Permutation (insert_by_count p l) (p :: l).
Proof.
  induction l as [|q l IH]; simpl; [reflexivity|].
  destruct (snd p <=? snd q); [reflexivity|].
  rewrite IH. apply perm_swap.
Qed.

Lemma sorted_by_count_perm l : Permutation (sorted_by_count l) l.
Proof.
  induction l as [|p l IH]; simpl; [reflexivity|].
  rewrite insert_by_count_perm. now constructor.
Qed.

Lemma insert_by_count_sorted p l :
  StronglySorted (fun q r => snd q <= snd r) l ->
  StronglySorted (fun q r => snd q <= snd r) (insert_by_count p l).
Proof.
  induction l as [|q l IH]; simpl; intros S.
  - repeat constructor.
  - destruct (snd p <=? snd q) eqn:E.
    + apply Nat.leb_le in E. constructor; [assumption|].
      constructor; [assumption|]. inversion S as [|? ? _ F]; subst.
      eapply Forall_impl; [|exact F]. simpl. intros r ?. lia.
    + apply Nat.leb_gt in E. inversion S as [|? ? S' F]; subst.
      constructor; [now apply IH|].
      apply (Permutation_Forall (Permutation_sym (insert_by_count_perm p l))).
      constructor; [lia | assumption].
Qed.

Lemma sorted_by_count_sorted l :
  StronglySorted (fun q r => snd q <= snd r) (sorted_by_count l).
Proof.
  induction l as [|p l IH]; simpl; [constructor|].
  now apply insert_by_count_sorted.
Qed.

Lemma StronglySorted_map_snd {A} (l : list (A * nat)) :
  StronglySorted (fun q r => snd q <= snd r) l -> StronglySorted le (map snd l).
Proof.
  induction 1 as [|p l S IH F]; simpl; constructor; [assumption|].
  apply Forall_map. exact F.
Qed.

Lemma value_heuristic_inv cw d var a dv h :
  value_heuristic cw d var a dv = Ok h ->
  map fst h = dv
  /\ Forall (fun p => ruled_out cw d var (fst p) (unassigned_neighbors cw var a)
                      = Ok (snd p)) h.
Proof.
  revert h. induction dv as [|w dv IH]; simpl; intros h H.
  - inversion H. split; [reflexivity | constructor].
  - fold (unassigned_neighbors cw var a) in H.
    destruct (ruled_out cw d var w _) as [k| |] eqn:R; simpl in H; try discriminate.
    destruct (value_heuristic cw d var a dv) as [rest| |]; simpl in H;
      try discriminate.
    inversion H; subst h. destruct (IH rest eq_refl) as [E F].
    split; [simpl; now rewrite E | constructor; assumption].
Qed.

Lemma order_domain_values_inv cw var a d values :
  order_domain_values cw (Some var) a d = Ok values ->
  exists dv h,
    dict_get var d = Some dv
    /\ value_heuristic cw d var a dv = Ok h
    /\ values = map fst (sorted_by_count h).
Proof.
  unfold order_domain_values, domain_of. intros H.
  destruct (dict_get var d) as [dv|]; simpl in H; [|discriminate].
  destruct (value_heuristic cw d var a dv) as [h| |] eqn:V; simpl in H;
    try discriminate.
  inversion H. eauto.
Qed.

(** X1: the list that [order_domain_values] returns is the domain of the
    slot in another order; no candidate is dropped, none is added. *)
Theorem order_domain_values_permutation (cw : Crossword) (var : variable)
    (a : assignment) (d : domains) (values : list string)
    (H : order_domain_values cw (Some var) a d = Ok values) :
  Permutation values (domain d var).
Proof.
  destruct (order_domain_values_inv _ _ _ _ _ H) as (dv & h & Ev & V & ->).
  destruct (value_heuristic_inv _ _ _ _ _ _ V) as [E _].
  unfold domain. rewrite Ev, <- E.
  apply Permutation_map, sorted_by_count_perm.
Qed.

Lemma order_domain_values_permutation_witness :
  Permutation ["AX"; "BX"; "CX"]%string
    (domain (node_filtered Examples.arch) Examples.left).
Proof.
  apply (order_domain_values_permutation Examples.arch Examples.left []
           (node_filtered Examples.arch)).
  vm_compute. reflexivity.
Defined.

Lemma unassigned_neighbors_open cw var a :
  unassigned_neighbors cw var a = open_neighbors cw var a.
Proof.
  unfold unassigned_neighbors, open_neighbors, set_diff.
  apply filter_ext. intros n. f_equal.
  destruct (dict_mem n a) eqn:E.
  - apply set_mem_var, dict_mem_keys, E.
  - destruct (set_mem variable_eqb n (dict_keys a)) eqn:S; [|reflexivity].
    apply set_mem_var, dict_mem_keys in S. congruence.
Qed.

(** The count of the code is the number of words of the neighbour's domain
    that differ at the shared cell. *)
Lemma count_differ_count i j w dn : forall k,
  count_differ i j w dn = Ok k ->
  k = List.length (filter (letters_differ i j w) dn).
Proof.
  induction dn as [|wn dn IH]; simpl; intros k H; [now inversion H|].
  unfold index in H. unfold letters_differ at 1.
  destruct (String.get i w) as [c|]; simpl in H; [|discriminate].
  destruct (String.get j wn) as [cn|]; simpl in H; [|discriminate].
  destruct (count_differ i j w dn) as [k'| |]; simpl in H; try discriminate.
  inversion H; subst k; clear H. specialize (IH k' eq_refl).
  destruct (negb (Ascii.eqb c cn)); simpl; congruence.
Qed.

Lemma ruled_out_count_spec cw d var w ns : forall k,
  ruled_out cw d var w ns = Ok k ->
  k = list_sum (map (fun n => List.length (ruled_out_words cw d var w n)) ns).
Proof.
  induction ns as [|n ns IH]; simpl; intros k H; [now inversion H|].
  unfold ruled_out_words at 1.
  destruct (overlaps cw var n) as [[i j]|]; [|discriminate].
  unfold domain_of in H. unfold domain.
  destruct (dict_get n d) as [dn|]; simpl in H; [|discriminate].
  destruct (count_differ i j w dn) as [k1| |] eqn:C; simpl in H; try discriminate.
  destruct (ruled_out cw d var w ns) as [k2| |]; simpl in H; try discriminate.
  inversion H; subst k. apply count_differ_count in C.
  rewrite <- (IH k2 eq_refl). congruence.
Qed.

(** X2: the values come in ascending order of the number of words they
    rule out: for each neighbour of the slot without a word in the
    assignment, the words of its domain whose letter at the shared cell
    differs from the letter of the value. *)
Theorem order_domain_values_ascending (cw : Crossword) (var : variable)
    (a : assignment) (d : domains) (values : list string)
    (H : order_domain_values cw (Some var) a d = Ok values) :
  StronglySorted le (map (ruled_out_count cw d var a) values).
Proof.
  destruct (order_domain_values_inv _ _ _ _ _ H) as (dv & h & Ev & V & ->).
  destruct (value_heuristic_inv _ _ _ _ _ _ V) as [_ F].
  assert (Forall (fun p => snd p = ruled_out_count cw d var a (fst p))
                 (sorted_by_count h)) as F'.
  { apply (Permutation_Forall (Permutation_sym (sorted_by_count_perm h))).
    eapply Forall_impl; [|exact F]. intros p Hp. simpl in Hp.
    apply ruled_out_count_spec in Hp. unfold ruled_out_count.
    now rewrite <- unassigned_neighbors_open. }
  rewrite map_map.
  replace (map (fun p => ruled_out_count cw d var a (fst p)) (sorted_by_count h))
    with (map snd (sorted_by_count h)).
  - apply StronglySorted_map_snd, sorted_by_count_sorted.
  - apply map_ext_in. intros p Hp. rewrite Forall_forall in F'. now apply F'.
Qed.

Lemma order_domain_values_ascending_witness :
  StronglySorted le
    (map (ruled_out_count Examples.arch (node_filtered Examples.arch)
            Examples.left [])
         ["AX"; "BX"; "CX"]%string).
Proof.
  apply (order_domain_values_ascending Examples.arch Examples.left []
           (node_filtered Examples.arch)).
  vm_compute. reflexivity.
Defined.

(** ** [backtrack] and the empty word *)

Lemma set_diff_all_assigned (vars : list variable) (a : assignment) :
  (forall x, In x vars -> dict_mem x a = true) ->
  set_diff variable_eqb vars (dict_keys a) = [].
Proof.
  intros H. unfold set_diff.
  induction vars as [|v vars IH]; [reflexivity|]. cbn [filter].
  rewrite (proj2 (set_mem_var v (dict_keys a)))
    by (apply dict_mem_keys, H; now left).
  simpl. apply IH. intros x Hx. apply H. now right.
Qed.

(** X4: [assignment_complete] takes a slot with the empty word for
    unassigned, [select_unassigned_variable] goes by the keys.  When every
    slot is a key of the assignment and the assignment is not complete,
    the selection returns [None] and [backtrack] raises [KeyError] on
    [self.domains[None]], the store untouched. *)
Theorem backtrack_empty_word_raises (cw : Crossword) (a : assignment)
    (d : domains)
    (Hkeys : forall x, In x (variables cw) -> dict_mem x a = true)
    (Hopen : assignment_complete cw a = false) :
  select_unassigned_variable cw a d = Ok None
  /\ backtrack cw a d = (Raise KeyError, d).
Proof.
  assert (select_unassigned_variable cw a d = Ok None) as S.
  { unfold select_unassigned_variable.
    now rewrite (set_diff_all_assigned _ _ Hkeys). }
  split; [exact S|].
  unfold backtrack. now rewrite backtrack_rec_step, Hopen, S.
Qed.

Lemma backtrack_empty_word_raises_witness :
  backtrack Single.puzzle [(Single.slot, ""%string)]
    (node_filtered Single.puzzle)
  = (Raise KeyError, node_filtered Single.puzzle).
Proof.
  refine (proj2 (backtrack_empty_word_raises Single.puzzle
                   [(Single.slot, ""%string)] (node_filtered Single.puzzle) _ _)).
  - intros x [<-|[]]. reflexivity.
  - reflexivity.
Defined.

(** ** [consistent] *)

Lemma agrees_with_neighbors_complete cw a x wx ns :
  (forall y wy, In y ns -> dict_get y a = Some wy ->
     exists i j, overlaps cw x y = Some (i, j) /\ letters_agree i j wx wy) ->
  agrees_with_neighbors cw a x wx ns = Ok true.
Proof.
  induction ns as [|n ns IH]; simpl; intros H; [reflexivity|].
  destruct (dict_get n a) as [wn|] eqn:En; [|auto].
  destruct (H n wn (or_introl eq_refl) En) as (i & j & -> & c & G1 & G2).
  unfold index. rewrite G1, G2. simpl. rewrite Ascii.eqb_refl. simpl. auto.
Qed.

Lemma consistent_items_complete cw a items :
  (forall x wx, In (x, wx) items ->
     var_length x = String.length wx
     /\ forall y wy, In y (neighbors cw x) -> dict_get y a = Some wy ->
          exists i j, overlaps cw x y = Some (i, j) /\ letters_agree i j wx wy) ->
  consistent_items cw a items = Ok true.
Proof.
  induction items as [|[x wx] items IH]; simpl; intros H; [reflexivity|].
  destruct (H x wx (or_introl eq_refl)) as [L A].
  rewrite L, Nat.eqb_refl. simpl.
  rewrite agrees_with_neighbors_complete by exact A. simpl. auto.
Qed.

(** X5: [consistent] returns [True] exactly when every assigned word has
    the length of its slot and, for every assigned slot and every assigned
    neighbour of it, the overlap of the two is recorded and the two words
    carry the same letter there.  Slots without a word play no part. *)
Theorem consistent_true_iff (cw : Crossword) (a : assignment) :
  consistent cw a = Ok true
  <-> forall x wx, In (x, wx) a ->
        var_length x = String.length wx
        /\ forall y wy, In y (neighbors cw x) -> dict_get y a = Some wy ->
             exists i j, overlaps cw x y = Some (i, j)
                         /\ letters_agree i j wx wy.
Proof.
  unfold consistent. split.
  - intros H x wx Hin. destruct (consistent_items_true cw a a H x wx Hin) as [L A].
    split; [exact L|]. intros y wy Hy Ey.
    exact (agrees_with_neighbors_true cw a x wx _ A y wy Hy Ey).
  - apply consistent_items_complete.
Qed.

Lemma consistent_true_iff_witness :
  var_length Examples.top = String.length "AXB".
Proof.
  refine (proj1 (proj1 (consistent_true_iff Examples.arch Examples.arch_solution)
                   _ Examples.top "AXB"%string _)).
  - vm_compute. reflexivity.
  - right. left. reflexivity.
Defined.

(** ** [revise] twice *)

Lemma words_remove_store d d' i j y dx :
  dict_get y d' = dict_get y d ->
  words_remove d' i j y dx = words_remove d i j y dx.
Proof.
  intros E. induction dx as [|w dx IH]; simpl; [reflexivity|].
  unfold domain_of. now rewrite E, IH.
Qed.

Lemma words_remove_supported d i j y dx :
  (dx <> [] -> dict_get y d <> None) ->
  (forall w, In w dx -> any_agree i j w (domain d y) = Ok true) ->
  words_remove d i j y dx = Ok [].
Proof.
  induction dx as [|w dx IH]; simpl; intros Hy H; [reflexivity|].
  unfold domain_of. specialize (H w (or_introl eq_refl)) as Hw.
  unfold domain in Hw.
  destruct (dict_get y d) as [dy|] eqn:Ey; [|destruct Hy; [discriminate|reflexivity]].
  simpl. rewrite Hw. simpl. rewrite IH; [reflexivity| |].
  - intros _. congruence.
  - intros w' Hw'. apply H. now right.
Qed.

(** X6: once [revise(x, y)] has returned, for two distinct slots, the arc
    needs no further revision: called again on the store it left, it
    returns [False] and changes nothing. *)
Theorem revise_twice (cw : Crossword) (x y : variable) (d d' : domains)
    (b : bool) (Hxy : x <> y)
    (H : revise cw x y d = (Ok b, d')) :
  revise cw x y d' = (Ok false, d').
Proof.
  destruct (revise_cases cw x y d)
    as [E|[[e E]|(i & j & dx & rm & O & Ex & R & Hn & E)]];
    rewrite E in H; inversion H; subst; clear H; [exact E|].
  assert (dict_get y (dict_set x (set_diff String.eqb dx rm) d) = dict_get y d)
    as Fy by (apply dict_get_set_other; congruence).
  unfold revise. rewrite O. unfold domain_of. rewrite dict_get_set_same. simpl.
  rewrite (words_remove_store d _ i j y _ Fy).
  rewrite words_remove_supported; [reflexivity| |].
  - intros _ C. destruct rm as [|r rm]; [congruence|].
    assert (In r dx) as Hr
        by (eapply words_remove_incl; [exact R | now left]).
    destruct dx as [|w0 dx]; [destruct Hr|]. simpl in R.
    unfold domain_of in R. rewrite C in R. discriminate.
  - intros w Hw. apply set_diff_str_In in Hw as [Hw Hr].
    destruct (words_remove_ok _ _ _ _ _ _ R w Hw) as ([|] & A & I);
      [exact A | destruct Hr; now apply I].
Qed.

Lemma revise_twice_witness :
  revise Examples.cat_dog Examples.slot_A Examples.slot_B
    [(Examples.slot_A, []); (Examples.slot_B, ["cat"; "dog"]%string)]
  = (Ok false,
     [(Examples.slot_A, []); (Examples.slot_B, ["cat"; "dog"]%string)]).
Proof.
  apply (revise_twice Examples.cat_dog Examples.slot_A Examples.slot_B
           (node_filtered Examples.cat_dog) _ true).
  - discriminate.
  - vm_compute. reflexivity.
Defined.

(** ** [ac3] and the solutions of the puzzle *)

(** X7: on a well-formed puzzle with a symmetric overlap table, a call of
    [ac3] with the default arcs that returns [True] leaves the store arc
    consistent: every word left for a slot agrees, at the shared cell, with
    some word left for each of its neighbours. *)
Theorem ac3_true_arc_consistent (cw : Crossword) (d d' : domains)
    (WF : well_formed cw = true) (SYM : overlaps_symmetric cw = true)
    (H : ac3 cw None d = (Ok true, d')) :
  forall x y i j w,
    In x (variables cw) -> In y (neighbors cw x) ->
    overlaps cw x y = Some (i, j) -> In w (domain d' x) ->
    exists w2, In w2 (domain d' y) /\ letters_agree i j w w2.
Proof.
  intros x y i j w Hx Hy O Hw. apply has_match_iff.
  exact (ac3_all_arc_consistent cw WF SYM d d' H x y i j Hx Hy O w Hw).
Qed.

Lemma ac3_true_arc_consistent_witness :
  exists w2,
    In w2 (domain [(Examples.slot_A, ["cat"%string]);
                   (Examples.slot_B, ["top"%string])] Examples.slot_B)
    /\ letters_agree 2 0 "cat" w2.
Proof.
  refine (ac3_true_arc_consistent
            (Examples.cat_top [Examples.slot_A; Examples.slot_B]
               ["cat"; "top"]%string)
            [(Examples.slot_A, ["cat"; "top"]%string);
             (Examples.slot_B, ["cat"; "top"]%string)]
            [(Examples.slot_A, ["cat"%string]); (Examples.slot_B, ["top"%string])]
            _ _ _ Examples.slot_A Examples.slot_B 2 0 "cat"%string _ _ _ _).
  - reflexivity.
  - reflexivity.
  - vm_compute. reflexivity.
  - left. reflexivity.
  - vm_compute. left. reflexivity.
  - reflexivity.
  - left. reflexivity.
Defined.

Section Solutions.
Variable cw : Crossword.
Variable a : assignment.
Hypothesis Sol : solution cw a.

Lemma revise_keeps_solution x y d b d' :
  In x (variables cw) -> In y (variables cw) -> x <> y ->
  offers cw d a -> revise cw x y d = (Ok b, d') -> offers cw d' a.
Proof.
  intros Hx Hy N W E.
  destruct (revise_cases cw x y d)
    as [H|[[e H]|(i & j & dx & rm & O & Ex & R & Hn & H)]];
    rewrite H in E; inversion E; subst; clear E H; [exact W|].
  intros z wz Hz Ez. unfold domain.
  destruct (variable_eqb z x) eqn:Ezx.
  - apply variable_eqb_eq in Ezx. subst z. rewrite dict_get_set_same.
    assert (In wz dx) as Hin
        by (specialize (W x wz Hx Ez); unfold domain in W; now rewrite Ex in W).
    apply set_diff_str_In. split; [exact Hin|]. intros Hr.
    destruct (words_remove_ok _ _ _ _ _ _ R wz Hin) as (b' & A & I).
    apply I in Hr. subst b'.
    destruct Sol as [Full Agree]. destruct (Full y Hy) as (wy & Ey & _).
    assert (has_match i j wz (domain d y) = true) as M.
    { apply has_match_iff. exists wy. split; [now apply W|].
      exact (Agree x y i j wz wy Hx Hy N O Ez Ey). }
    destruct (any_agree_match _ _ _ _ M) as [T|[e T]]; congruence.
  - apply variable_eqb_neq in Ezx. rewrite dict_get_set_other by assumption.
    exact (W z wz Hz Ez).
Qed.

Lemma ac3_run_keeps_solution q d b d' :
  ac3_run cw q d b d' ->
  (forall x y, In (x, y) q ->
               In x (variables cw) /\ In y (variables cw) /\ x <> y) ->
  offers cw d a -> b = true /\ offers cw d' a.
Proof.
  induction 1 as [d|x y rest d d1 b d2 E R IH|x y rest d d1 E Ex
                 |x y rest d d1 w s b d2 E Ex R IH]; intros Q W.
  - now split.
  - destruct (Q x y (or_introl eq_refl)) as (Hx & Hy & N).
    apply IH; [intros u v Huv; apply Q; now right|].
    exact (revise_keeps_solution x y d false d1 Hx Hy N W E).
  - exfalso. destruct (Q x y (or_introl eq_refl)) as (Hx & Hy & N).
    pose proof (revise_keeps_solution x y d true d1 Hx Hy N W E) as W1.
    destruct Sol as [Full _]. destruct (Full x Hx) as (wx & Ea & _).
    specialize (W1 x wx Hx Ea). unfold domain in W1. rewrite Ex in W1.
    destruct W1.
  - destruct (Q x y (or_introl eq_refl)) as (Hx & Hy & N).
    apply IH; [|exact (revise_keeps_solution x y d true d1 Hx Hy N W E)].
    intros u v Huv. apply in_app_iff in Huv as [Huv|Huv];
      [apply Q; now right|].
    apply in_map_iff in Huv as (z & Ez & Hz). inversion Ez; subst.
    apply filter_In in Hz as [Hz _]. apply neighbors_In in Hz. tauto.
Qed.
End Solutions.

(** X8: [ac3] never removes the word that a solution gives to a slot.  On
    a store that offers every word of a complete and consistent assignment,
    and for arcs between distinct slots of the puzzle, a call that returns
    does so with [True] and the store still offers every word of the
    assignment. *)
Theorem ac3_keeps_solutions (cw : Crossword) (a : assignment)
    (arcs : option (list (variable * variable))) (d d' : domains) (b : bool)
    (Sol : solution cw a)
    (Harcs : forall x y, In (x, y) (initial_queue cw arcs) ->
               In x (variables cw) /\ In y (variables cw) /\ x <> y)
    (Hoffers : forall x w, In x (variables cw) -> dict_get x a = Some w ->
                 In w (domain d x))
    (H : ac3 cw arcs d = (Ok b, d')) :
  b = true
  /\ forall x w, In x (variables cw) -> dict_get x a = Some w ->
       In w (domain d' x).
Proof.
  unfold ac3 in H. fold (initial_queue cw arcs) in H.
  apply ac3_loop_run in H.
  exact (ac3_run_keeps_solution cw a Sol _ _ _ _ H Harcs Hoffers).
Qed.

Lemma all_arcs_distinct cw x y :
  In (x, y) (all_arcs cw) ->
  In x (variables cw) /\ In y (variables cw) /\ x <> y.
Proof.
  unfold all_arcs. rewrite in_flat_map. intros (v & Hv & H).
  apply in_map_iff in H as (n & E & Hn). inversion E; subst.
  apply neighbors_In in Hn as (Hn & N & _). auto.
Qed.

Lemma solution_offered cw a :
  solution cw a -> from_word_list cw a -> offers cw (node_filtered cw) a.
Proof.
  intros [Full _] V x w Hx E. unfold domain, node_filtered.
  rewrite (dict_get_map x (fun v => fitting v (words cw))) by assumption.
  apply filter_In. split; [now apply (V x)|].
  destruct (Full x Hx) as (w' & E' & L). apply Nat.eqb_eq. congruence.
Qed.

Lemma ac3_keeps_solutions_witness :
  In "AXB"%string (domain (node_filtered Examples.arch) Examples.top).
Proof.
  refine (proj2 (ac3_keeps_solutions Examples.arch Examples.arch_solution None
                   (node_filtered Examples.arch) (node_filtered Examples.arch)
                   true _ _ _ _) Examples.top "AXB"%string
                (or_introl eq_refl) eq_refl).
  - apply checked_solution; [reflexivity|]. split; vm_compute; reflexivity.
  - apply all_arcs_distinct.
  - apply solution_offered.
    + apply checked_solution; [reflexivity|]. split; vm_compute; reflexivity.
    + intros x w [<-|[<-|[<-|[]]]] E; vm_compute in E; inversion E; subst;
        vm_compute; tauto.
  - vm_compute. reflexivity.
Defined.

(** X9: when a well-formed puzzle has a complete and consistent assignment
    made of words of the list, the first [ac3] pass of [solve] returns
    [True] and every word of that assignment is still in the domain of its
    slot: a failed first pass means that there is no such assignment. *)
Theorem first_pass_keeps_solutions (cw : Crossword) (a : assignment)
    (WF : well_formed cw = true) (Sol : solution cw a)
    (Hwords : forall x w, In x (variables cw) -> dict_get x a = Some w ->
                In w (words cw)) :
  exists d1,
    ac3 cw None (node_filtered cw) = (Ok true, d1)
    /\ forall x w, In x (variables cw) -> dict_get x a = Some w ->
         In w (domain d1 x).
Proof.
  destruct (ac3_ok cw WF None (node_filtered cw)) as (b & d1 & E & _).
  - apply node_filtered_consistent.
  - apply all_arcs_variables.
  - pose proof E as E'. unfold ac3 in E'. apply ac3_loop_run in E'.
    destruct (ac3_run_keeps_solution cw a Sol _ _ _ _ E') as [-> W].
    + apply all_arcs_distinct.
    + now apply solution_offered.
    + exists d1. split; assumption.
Qed.

Lemma first_pass_keeps_solutions_witness :
  exists d1,
    ac3 Examples.arch None (node_filtered Examples.arch) = (Ok true, d1)
    /\ In "AXB"%string (domain d1 Examples.top).
Proof.
  destruct (first_pass_keeps_solutions Examples.arch Examples.arch_solution)
    as (d1 & E & W).
  - reflexivity.
  - apply checked_solution; [reflexivity|]. split; vm_compute; reflexivity.
  - intros x w [<-|[<-|[<-|[]]]] E; vm_compute in E; inversion E; subst;
      vm_compute; tauto.
  - exists d1. split; [exact E|].
    exact (W Examples.top "AXB"%string (or_introl eq_refl) eq_refl).
Defined.

(** ** What [solve] hands back *)

Lemma for_each_shrinks {A} (body : A -> M unit) (l : list A) :
  (forall a d, shrinks d (snd (body a d))) ->
  forall d, shrinks d (snd (for_each l body d)).
Proof.
  intros Hbody. induction l as [|a l IH]; intros d; [apply shrinks_refl|].
  simpl. unfold bind. specialize (Hbody a d).
  destruct (body a d) as [[[]|e|] d1]; simpl in *; try assumption.
  eapply shrinks_trans; [exact Hbody | apply IH].
Qed.

Lemma domain_remove_shrinks var word d :
  shrinks d (snd (domain_remove var word d)).
Proof.
  unfold domain_remove. destruct (dict_get var d) as [s|] eqn:E;
    [|apply shrinks_refl].
  destruct (set_mem String.eqb word s); [|apply shrinks_refl].
  simpl. eapply shrinks_set; [exact E|].
  intros w Hw. unfold set_discard in Hw. now apply filter_In in Hw.
Qed.

Lemma enforce_node_consistency_shrinks cw d :
  shrinks d (snd (enforce_node_consistency cw d)).
Proof.
  unfold enforce_node_consistency. apply for_each_shrinks. intros var d0.
  unfold remove_misfits. apply for_each_shrinks. intros word d1.
  destruct (negb _); [apply domain_remove_shrinks | apply shrinks_refl].
Qed.

Lemma init_domains_get cw x s :
  dict_get x (init_domains cw) = Some s -> s = words cw.
Proof.
  unfold init_domains. induction (variables cw) as [|v vs IH]; simpl;
    [discriminate|].
  destruct (variable_eqb x v); [congruence | exact IH].
Qed.

Lemma init_domains_keys cw : dict_keys (init_domains cw) = variables cw.
Proof.
  unfold init_domains, dict_keys. rewrite map_map. simpl. apply map_id.
Qed.

Lemma shrinks_within_word_list cw d d' :
  shrinks d d' -> within_word_list cw d -> within_word_list cw d'.
Proof.
  intros [_ S] W x s' E. destruct (S _ _ E) as (s & Es & I).
  eapply incl_tran; [exact I | exact (W x s Es)].
Qed.

Lemma solve_shrinks cw : shrinks (init_domains cw) (snd (run_solve cw)).
Proof.
  unfold run_solve, solve, bind.
  pose proof (enforce_node_consistency_shrinks cw (init_domains cw)) as S0.
  destruct (enforce_node_consistency cw (init_domains cw)) as [[[]|e|] d0];
    simpl in *; try assumption.
  pose proof (ac3_shrinks cw None d0) as S1.
  destruct (ac3 cw None d0) as [[b|e|] d1]; simpl in *;
    try (eapply shrinks_trans; eassumption).
  eapply shrinks_trans; [exact S0|]. eapply shrinks_trans; [exact S1|].
  apply backtrack_rec_shrinks.
Qed.

(** X10: whatever way [solve] ends, a normal return or an exception, the
    store has the slots of the puzzle as its keys, in their order, and the
    domain of each holds words of the word list only: nothing is ever
    added to a domain. *)
Theorem solve_only_shrinks (cw : Crossword) :
  dict_keys (snd (run_solve cw)) = variables cw
  /\ forall x s, dict_get x (snd (run_solve cw)) = Some s -> incl s (words cw).
Proof.
  destruct (solve_shrinks cw) as [K S]. split.
  - now rewrite K, init_domains_keys.
  - intros x s E. destruct (S _ _ E) as (s0 & E0 & I).
    apply init_domains_get in E0. now subst.
Qed.

Section Built.
Variable cw : Crossword.

Lemma built_set a var value :
  built cw a -> In var (variables cw) -> dict_mem var a = false ->
  In value (words cw) -> built cw (dict_set var value a).
Proof.
  intros [ND B] Hv Hm Hw. split.
  - rewrite (dict_keys_set_new var value a) by now apply dict_mem_false.
    apply NoDup_app_remove_l with (l := []). simpl.
    apply Permutation_NoDup with (l := var :: dict_keys a).
    + apply Permutation_cons_append.
    + constructor; [|exact ND]. rewrite <- dict_mem_keys. congruence.
  - intros x w H. apply dict_set_In in H as [H|H]; [now apply B|].
    inversion H; subst. auto.
Qed.

Lemma try_values_built recur var a values :
  (forall a' d' r d'',
      built cw a' -> within_word_list cw d' ->
      recur a' d' = (Ok (Some r), d'') -> built cw r) ->
  built cw a -> In var (variables cw) -> dict_mem var a = false ->
  (forall w, In w values -> In w (words cw)) ->
  forall d r d',
    within_word_list cw d ->
    try_values cw recur var a values d = (Ok (Some r), d') -> built cw r.
Proof.
  intros Hrec B Hv Hm. induction values as [|value rest IH];
    intros Hw d r d' W H.
  - simpl in H. discriminate.
  - rewrite try_values_step in H.
    destruct (consistent cw (dict_set var value a)) as [[|]| |];
      try discriminate; [|eapply IH; eauto using in_cons].
    pose proof (ac3_shrinks cw (Some (map (fun n => (var, n)) (neighbors cw var))) d)
      as S.
    destruct (ac3 cw _ d) as [[[|]| |] d1]; try discriminate; simpl in S.
    + eapply Hrec; [| |exact H].
      * apply built_set; auto using in_eq.
      * eapply shrinks_within_word_list; eassumption.
    + eapply IH; [auto using in_cons | |exact H].
      eapply shrinks_within_word_list; eassumption.
Qed.

Lemma backtrack_rec_built fuel : forall a d r d',
  built cw a -> within_word_list cw d ->
  backtrack_rec cw fuel a d = (Ok (Some r), d') -> built cw r.
Proof.
  induction fuel as [|fuel IH]; intros a d r d' B W H; [discriminate|].
  rewrite backtrack_rec_step in H.
  destruct (assignment_complete cw a); [inversion H; now subst|].
  destruct (select_unassigned_variable cw a d) as [[var|]| |] eqn:E;
    try discriminate.
  destruct (order_domain_values cw (Some var) a d) as [values| |] eqn:V;
    try discriminate.
  destruct (select_unassigned_variable_inv cw d a _ E) as (Hv & Hm & _).
  refine (try_values_built (backtrack_rec cw fuel) var a values _ B Hv Hm _
            d r d' W H).
  - intros a' d1 r1 d2 B1 W1 H1. eapply IH; eassumption.
  - intros w Hw.
    destruct (order_domain_values_inv _ _ _ _ _ V) as (dv & h & Ev & Vh & ->).
    destruct (value_heuristic_inv _ _ _ _ _ _ Vh) as [Eh _].
    apply (W var dv Ev). rewrite <- Eh.
    apply in_map_iff in Hw as (p & <- & Hp).
    apply in_map. apply (Permutation_in _ (sorted_by_count_perm h) Hp).
Qed.
End Built.

(** X11: the dictionary that [solve] returns has the slots of the puzzle
    as its keys, each once, and gives each a word of the word list. *)
Theorem solve_uses_word_list (cw : Crossword) (a : assignment) (d : domains)
    (H : run_solve cw = (Ok (Some a), d)) :
  NoDup (dict_keys a)
  /\ (forall x, In x (variables cw) <-> In x (dict_keys a))
  /\ forall x w, dict_get x a = Some w -> In w (words cw).
Proof.
  assert (built cw a /\ assignment_complete cw a = true) as [[ND B] C].
  { unfold run_solve, solve, bind in H.
    pose proof (enforce_node_consistency_shrinks cw (init_domains cw)) as S0.
    destruct (enforce_node_consistency cw (init_domains cw)) as [[[]|e|] d0];
      try discriminate.
    pose proof (ac3_shrinks cw None d0) as S1.
    destruct (ac3 cw None d0) as [[b|e|] d1]; try discriminate.
    simpl in S0, S1. split.
    - eapply backtrack_rec_built; [| |exact H].
      + split; [constructor | intros x w []].
      + eapply shrinks_within_word_list; [exact S1|].
        eapply shrinks_within_word_list; [exact S0|].
        intros x s E. apply init_domains_get in E. subst. apply incl_refl.
    - eapply (backtrack_rec_checked cw); [|exact H]. reflexivity. }
  split; [exact ND|]. split.
  - intros x. split.
    + intros Hx. unfold assignment_complete in C. rewrite forallb_forall in C.
      specialize (C x Hx). apply dict_get_In_keys.
      destruct (dict_get x a); [discriminate | discriminate C].
    + intros Hx. apply in_map_iff in Hx as ([x' w] & <- & Hp).
      now apply (B x' w).
  - intros x w E. now apply (B x w), dict_get_In.
Qed.

Lemma solve_uses_word_list_witness :
  NoDup (dict_keys [(Examples.slot_A, "cat"%string);
                    (Examples.slot_B, "top"%string)]).
Proof.
  refine (proj1 (solve_uses_word_list
                   (Examples.cat_top [Examples.slot_A; Examples.slot_B]
                      ["cat"; "top"]%string)
                   _ [(Examples.slot_A, ["cat"%string]);
                      (Examples.slot_B, ["top"%string])] _)).
  vm_compute. reflexivity.
Defined.

(** ** Direct calls *)

(** X12: [revise] writes to the store once, after its loop: a call that
    does not return [True], an exception included, leaves the store as it
    was, and a call that returns [True] leaves [x] with a domain that is
    strictly smaller. *)
Theorem revise_changes_only_on_true (cw : Crossword) (x y : variable)
    (d : domains) :
  (fst (revise cw x y d) <> Ok true -> snd (revise cw x y d) = d)
  /\ (fst (revise cw x y d) = Ok true ->
      List.length (domain (snd (revise cw x y d)) x)
      < List.length (domain d x)).
Proof.
  destruct (revise cw x y d) as [o d'] eqn:E. simpl. split.
  - intros N. eapply revise_not_revised; eassumption.
  - intros ->.
    destruct (revise_cases cw x y d)
      as [H|[[e H]|(i & j & dx & rm & O & Ex & R & Hn & H)]];
      rewrite H in E; inversion E; subst.
    unfold domain. rewrite dict_get_set_same, Ex.
    destruct rm as [|r rm]; [congruence|].
    apply filter_length_lt with (a := r).
    + eapply words_remove_incl; [exact R | now left].
    + apply negb_false_iff, set_mem_str. now left.
Qed.

Lemma revise_changes_only_on_true_witness :
  snd (revise Examples.cat_dog Examples.slot_A Examples.slot_B [])
  = []
  /\ List.length (domain (snd (revise Examples.cat_dog Examples.slot_A
                                 Examples.slot_B
                                 (node_filtered Examples.cat_dog)))
                    Examples.slot_A)
     < List.length (domain (node_filtered Examples.cat_dog) Examples.slot_A).
Proof.
  split.
  - apply (proj1 (revise_changes_only_on_true Examples.cat_dog Examples.slot_A
                    Examples.slot_B [])).
    discriminate.
  - apply (proj2 (revise_changes_only_on_true Examples.cat_dog Examples.slot_A
                    Examples.slot_B (node_filtered Examples.cat_dog))).
    reflexivity.
Defined.

(** X13: a direct call of [ac3] on a well-formed puzzle, with a store in
    which every slot has words of its length and arcs between slots of the
    puzzle, returns a boolean without raising and leaves such a store. *)
Theorem ac3_returns (cw : Crossword)
    (arcs : option (list (variable * variable))) (d : domains)
    (WF : well_formed cw = true) (N : node_consistent cw d)
    (Harcs : forall x y, In (x, y) (initial_queue cw arcs) ->
               In x (variables cw) /\ In y (variables cw)) :
  exists b d', ac3 cw arcs d = (Ok b, d') /\ node_consistent cw d'.
Proof. now apply ac3_ok. Qed.

Lemma ac3_returns_witness :
  exists b d',
    ac3 Examples.arch None (node_filtered Examples.arch) = (Ok b, d')
    /\ node_consistent Examples.arch d'.
Proof.
  apply ac3_returns.
  - reflexivity.
  - apply node_filtered_consistent.
  - apply all_arcs_variables.
Defined.

(** X14: a direct call of [backtrack] on a well-formed puzzle, with a
    store in which every slot has words of its length and an assignment of
    slots of the puzzle to words of their length, returns a dictionary or
    [None] without raising. *)
Theorem backtrack_returns (cw : Crossword) (a : assignment) (d : domains)
    (WF : well_formed cw = true) (N : node_consistent cw d)
    (T : forall x w, In (x, w) a ->
           In x (variables cw) /\ String.length w = var_length x) :
  exists r d', backtrack cw a d = (Ok r, d') /\ node_consistent cw d'.
Proof.
  apply backtrack_rec_ok; try assumption.
  unfold unassigned_count, set_diff.
  pose proof (filter_length_le
                (fun x => negb (set_mem variable_eqb x (dict_keys a)))
                (variables cw)). lia.
Qed.

Lemma backtrack_returns_witness :
  exists r d',
    backtrack Examples.arch [(Examples.left, "AX"%string)]
      (node_filtered Examples.arch) = (Ok r, d')
    /\ node_consistent Examples.arch d'.
Proof.
  apply backtrack_returns.
  - reflexivity.
  - apply node_filtered_consistent.
  - intros x w [E|[]]. inversion E; subst. split; [right; left|]; reflexivity.
Defined.

(** X15: the recursion of [backtrack] goes at most as deep as the number
    of slots that the assignment leaves out, plus one, whatever the puzzle,
    the assignment and the store: every recursive call is for an assignment
    with one more slot of the puzzle. *)
Theorem backtrack_depth (cw : Crossword) (a : assignment) (d : domains)
    (fuel : nat) (Hfuel : unassigned_count cw a < fuel) :
  fst (backtrack_rec cw fuel a d) <> OutOfFuel.
Proof. now apply backtrack_rec_fuel. Qed.

Lemma backtrack_depth_witness :
  fst (backtrack_rec Examples.arch 4 [] (node_filtered Examples.arch))
  <> OutOfFuel.
Proof.
  apply backtrack_depth. vm_compute. lia.
Defined.

(** ** [letter_grid] *)

Lemma list_set_length {A} (l : list A) : forall n a,
  List.length (list_set l n a) = List.length l.
Proof.
  induction l as [|b l IH]; intros [|n] a; simpl; auto.
Qed.

Lemma list_set_same {A} (l : list A) : forall n a,
  n < List.length l -> nth_error (list_set l n a) n = Some a.
Proof.
  induction l as [|b l IH]; intros [|n] a; simpl; intros H; try lia; auto.
  apply IH. lia.
Qed.

Lemma list_set_other {A} (l : list A) : forall n m a,
  m <> n -> nth_error (list_set l n a) m = nth_error l m.
Proof.
  induction l as [|b l IH]; intros [|n] [|m] a N; simpl; auto; try congruence.
Qed.

Lemma list_set_Forall {A} (P : A -> Prop) (l : list A) : forall n a,
  Forall P l -> P a -> Forall P (list_set l n a).
Proof.
  induction l as [|b l IH]; intros [|n] a F Pa; simpl; auto;
    inversion F; subst; constructor; auto.
Qed.

Lemma shape_row h w g i row :
  shape h w g -> nth_error g i = Some row -> i < h /\ List.length row = w.
Proof.
  intros [L F] E. split.
  - rewrite <- L. apply nth_error_Some. congruence.
  - rewrite Forall_forall in F. apply F. eapply nth_error_In; eassumption.
Qed.

Lemma grid_set_inside h w g i j c :
  shape h w g -> i < h -> j < w -> exists g', grid_set g i j c = Ok g'.
Proof.
  intros S Hi Hj. unfold grid_set.
  destruct (nth_error g i) as [row|] eqn:E.
  - destruct (shape_row _ _ _ _ _ S E) as [_ L]. rewrite L.
    apply Nat.ltb_lt in Hj. rewrite Hj. eauto.
  - apply nth_error_None in E. destruct S as [L _]. lia.
Qed.

Lemma grid_set_outside h w g i j c :
  shape h w g -> ~ (i < h /\ j < w) -> grid_set g i j c = Raise IndexError.
Proof.
  intros S N. unfold grid_set.
  destruct (nth_error g i) as [row|] eqn:E; [|reflexivity].
  destruct (shape_row _ _ _ _ _ S E) as [Hi L]. rewrite L.
  destruct (j <? w) eqn:Hj; [|reflexivity].
  apply Nat.ltb_lt in Hj. tauto.
Qed.

Lemma grid_set_ok h w g i j c g' :
  shape h w g -> grid_set g i j c = Ok g' ->
  shape h w g'
  /\ grid_get g' (i, j) = Some (Some c)
  /\ forall cell, cell <> (i, j) -> grid_get g' cell = grid_get g cell.
Proof.
  intros S H. unfold grid_set in H.
  destruct (nth_error g i) as [row|] eqn:E; [|discriminate].
  destruct (j <? List.length row) eqn:Hj; [|discriminate].
  inversion H; subst g'; clear H. apply Nat.ltb_lt in Hj.
  destruct (shape_row _ _ _ _ _ S E) as [Hi L]. destruct S as [Lg F].
  split; [|split].
  - split; [now rewrite list_set_length|].
    apply list_set_Forall; [exact F|]. now rewrite list_set_length.
  - unfold grid_get. simpl. rewrite list_set_same by lia.
    now apply list_set_same.
  - intros [i' j'] N. unfold grid_get. simpl.
    destruct (Nat.eq_dec i' i) as [->|Ni].
    + rewrite list_set_same by lia. rewrite E.
      apply list_set_other. congruence.
    + now rewrite list_set_other.
Qed.

Lemma grid_set_raises g i j c : grid_set g i j c <> OutOfFuel
  /\ forall e, grid_set g i j c = Raise e -> e = IndexError.
Proof.
  unfold grid_set. destruct (nth_error g i) as [row|].
  - destruct (j <? List.length row); split; try discriminate; congruence.
  - split; [discriminate | congruence].
Qed.

Lemma write_word_all x w : forall ks g,
  (forall k, In k ks -> k < String.length w) ->
  write_word x w ks g = write_all (word_writes x w ks) g.
Proof.
  induction ks as [|k ks IH]; intros g H; [reflexivity|].
  destruct (get_in_range w k (H k (or_introl eq_refl))) as [c Hc].
  cbn [write_word word_writes flat_map]. unfold index. rewrite Hc.
  cbn [app write_all obind fst snd].
  destruct (grid_set g _ _ c); simpl; try reflexivity.
  apply IH. intros k' Hk'. apply H. now right.
Qed.

Lemma write_all_app ws1 : forall ws2 g,
  write_all (ws1 ++ ws2) g = (g' <~ write_all ws1 g ;; write_all ws2 g')%py.
Proof.
  induction ws1 as [|[cell c] ws1 IH]; intros ws2 g; [reflexivity|].
  simpl. destruct (grid_set g (fst cell) (snd cell) c); simpl; auto.
Qed.

Lemma write_items_all items : forall g,
  write_items items g = write_all (item_writes items) g.
Proof.
  induction items as [|[x w] items IH]; intros g; [reflexivity|].
  cbn [write_items item_writes flat_map fst snd]. rewrite write_all_app.
  rewrite write_word_all by (intros k Hk; now apply in_seq in Hk).
  destruct (write_all _ g); simpl; auto.
Qed.

Lemma item_writes_In items cell c :
  In (cell, c) (item_writes items)
  <-> exists x w k, In (x, w) items /\ String.get k w = Some c
                    /\ cell_of x k = cell.
Proof.
  unfold item_writes, word_writes. rewrite in_flat_map. split.
  - intros ([x w] & Hin & H). simpl in H. apply in_flat_map in H as (k & Hk & H).
    destruct (String.get k w) as [c'|] eqn:G; [|destruct H].
    destruct H as [H|[]]. inversion H; subst. exists x, w, k. auto.
  - intros (x & w & k & Hin & G & <-). exists (x, w). split; [exact Hin|].
    simpl. apply in_flat_map. exists k. split.
    + apply in_seq. apply get_some_lt in G. lia.
    + rewrite G. now left.
Qed.

Lemma cell_eq_dec (p q : nat * nat) : {p = q} + {p <> q}.
Proof. decide equality; apply Nat.eq_dec. Qed.

Lemma write_all_ok h w ws : forall g g',
  shape h w g -> write_all ws g = Ok g' ->
  shape h w g'
  /\ (forall cell, (forall c, ~ In (cell, c) ws) ->
                   grid_get g' cell = grid_get g cell)
  /\ (forall cell c0, (forall c, In (cell, c) ws -> c = c0) ->
                      (exists c, In (cell, c) ws) ->
                      grid_get g' cell = Some (Some c0)).
Proof.
  induction ws as [|[[i j] c] ws IH]; intros g g' S H.
  - inversion H; subst. split; [exact S|]. split; [reflexivity|].
    intros cell c0 _ [c []].
  - simpl in H. destruct (grid_set g i j c) as [g1| |] eqn:E; simpl in H;
      try discriminate.
    destruct (grid_set_ok _ _ _ _ _ _ _ S E) as (S1 & Same & Other).
    destruct (IH g1 g' S1 H) as (S' & Keep & Put).
    split; [exact S'|]. split.
    + intros cell N. rewrite Keep by (intros c' Hc'; apply (N c'); now right).
      apply Other. intros ->. apply (N c). now left.
    + intros cell c0 Uniq Ex.
      destruct (in_dec cell_eq_dec cell (map fst ws)) as [Hin|Hnin].
      * apply Put.
        -- intros c' Hc'. apply Uniq. now right.
        -- apply in_map_iff in Hin as ([cell' c'] & Ec & Hc'). simpl in Ec.
           subst. eauto.
      * rewrite Keep.
        -- destruct Ex as [c' [Hc'|Hc']].
           ++ inversion Hc'; subst. rewrite Same. f_equal. f_equal.
              apply Uniq. now left.
           ++ destruct Hnin. apply in_map_iff. exists (cell, c'). auto.
        -- intros c' Hc'. apply Hnin. apply in_map_iff. exists (cell, c'). auto.
Qed.

Lemma repeat_nth_error {A} (a : A) n : forall k,
  k < n -> nth_error (repeat a n) k = Some a.
Proof.
  induction n as [|n IH]; intros [|k] H; simpl; try lia; auto.
  apply IH. lia.
Qed.

Lemma blank_shape h w : shape h w (repeat (repeat None w) h).
Proof.
  split; [apply repeat_length|]. apply Forall_forall. intros row H.
  apply repeat_spec in H. subst. apply repeat_length.
Qed.

Lemma blank_get h w cell :
  fst cell < h -> snd cell < w ->
  grid_get (repeat (repeat (@None ascii) w) h) cell = Some None.
Proof.
  intros Hi Hj. unfold grid_get. rewrite repeat_nth_error by assumption.
  now apply repeat_nth_error.
Qed.

Lemma write_all_inside h w ws : forall g,
  shape h w g ->
  (forall cell c, In (cell, c) ws -> fst cell < h /\ snd cell < w) ->
  exists g', write_all ws g = Ok g'.
Proof.
  induction ws as [|[cell c] ws IH]; intros g S H; [simpl; eauto|].
  destruct (H cell c (or_introl eq_refl)) as [Hi Hj].
  destruct (grid_set_inside h w g (fst cell) (snd cell) c S Hi Hj) as [g1 E].
  simpl. rewrite E. simpl.
  apply IH; [|intros cell' c' Hin; apply (H cell' c'); now right].
  now destruct (grid_set_ok _ _ _ _ _ _ _ S E).
Qed.

Lemma write_all_outside h w ws : forall g,
  shape h w g ->
  (exists cell c, In (cell, c) ws /\ ~ (fst cell < h /\ snd cell < w)) ->
  write_all ws g = Raise IndexError.
Proof.
  induction ws as [|[cell c] ws IH]; intros g S (cell0 & c0 & Hin & N);
    [destruct Hin|].
  simpl. destruct (lt_dec (fst cell) h) as [Hi|Hi];
    [destruct (lt_dec (snd cell) w) as [Hj|Hj]|].
  - destruct (grid_set_inside h w g (fst cell) (snd cell) c S Hi Hj) as [g1 E].
    rewrite E. simpl. apply IH.
    + now destruct (grid_set_ok _ _ _ _ _ _ _ S E).
    + exists cell0, c0. split; [|exact N].
      destruct Hin as [Hin|Hin]; [|exact Hin]. inversion Hin; subst. tauto.
  - rewrite (grid_set_outside h w g (fst cell) (snd cell) c S) by tauto.
    reflexivity.
  - rewrite (grid_set_outside h w g (fst cell) (snd cell) c S) by tauto.
    reflexivity.
Qed.

(** X16: on the grid that [letter_grid] returns, every letter of every
    assigned word stands on its cell, provided that two words that meet on
    a cell carry the same letter there (of two different letters the one
    written last would stay). *)
Theorem letter_grid_shows_words (height width : nat) (a : assignment)
    (letters : grid) (x : variable) (word : string) (k : nat) (c : ascii)
    (H : letter_grid height width a = Ok letters)
    (Hfit : words_fit a)
    (Hin : In (x, word) a) (Hk : String.get k word = Some c) :
  grid_get letters (cell_of x k) = Some (Some c).
Proof.
  unfold letter_grid in H. rewrite write_items_all in H.
  destruct (write_all_ok height width _ _ _ (blank_shape height width) H)
    as (_ & _ & Put).
  apply Put.
  - intros c' Hc'. apply item_writes_In in Hc' as (y & wy & k' & Hy & Gy & Ec).
    symmetry. exact (Hfit x word y wy k k' c c' Hin Hy (eq_sym Ec) Hk Gy).
  - exists c. apply item_writes_In. exists x, word, k. auto.
Qed.

Lemma letter_grid_shows_words_witness :
  exists letters,
    letter_grid 2 3 Examples.arch_solution = Ok letters
    /\ grid_get letters (cell_of Examples.top 2) = Some (Some "B"%char).
Proof.
  eexists. split; [vm_compute; reflexivity|].
  apply (letter_grid_shows_words 2 3 Examples.arch_solution _ Examples.top
           "AXB"%string 2 "B"%char).
  - vm_compute. reflexivity.
  - intros x wx y wy k k' c c' Hx Hy E Gx Gy.
    destruct Hx as [Hx|[Hx|[Hx|[]]]]; inversion Hx; subst; clear Hx;
      destruct Hy as [Hy|[Hy|[Hy|[]]]]; inversion Hy; subst; clear Hy;
      destruct k as [|[|[|k]]]; simpl in Gx; try discriminate;
      destruct k' as [|[|[|k']]]; simpl in Gy; try discriminate;
      vm_compute in E; try discriminate; congruence.
  - right. left. reflexivity.
  - reflexivity.
Defined.

(** X17: the grid that [letter_grid] returns has [height] rows of [width]
    cells, and a cell on which no assigned word has a letter holds
    [None]. *)
Theorem letter_grid_blank_cells (height width : nat) (a : assignment)
    (letters : grid) (cell : nat * nat)
    (H : letter_grid height width a = Ok letters)
    (Hi : fst cell < height) (Hj : snd cell < width)
    (Hfree : ~ covered a cell) :
  shape height width letters /\ grid_get letters cell = Some None.
Proof.
  unfold letter_grid in H. rewrite write_items_all in H.
  destruct (write_all_ok height width _ _ _ (blank_shape height width) H)
    as (S & Keep & _).
  split; [exact S|]. rewrite Keep; [now apply blank_get|].
  intros c Hc. apply Hfree. apply item_writes_In in Hc as (x & w & k & Hx & G & E).
  exists x, w, k. split; [exact Hx|]. split; [|exact E].
  now apply get_some_lt in G.
Qed.

Lemma letter_grid_blank_cells_witness :
  exists letters,
    letter_grid 2 3 Examples.arch_solution = Ok letters
    /\ grid_get letters (1, 1) = Some None.
Proof.
  eexists. split; [vm_compute; reflexivity|].
  apply (letter_grid_blank_cells 2 3 Examples.arch_solution _ (1, 1)).
  - vm_compute. reflexivity.
  - simpl. lia.
  - simpl. lia.
  - intros (x & w & k & Hx & Hk & E).
    destruct Hx as [Hx|[Hx|[Hx|[]]]]; inversion Hx; subst; clear Hx;
      destruct k as [|[|[|k]]]; vm_compute in E; try discriminate;
      simpl in Hk; lia.
Defined.

(** X18: [letter_grid] returns a grid when every letter of every assigned
    word falls inside the [height] by [width] grid, and raises
    [IndexError] as soon as one falls outside (a word longer than the room
    its slot has, a slot of another grid). *)
Theorem letter_grid_bounds (height width : nat) (a : assignment) :
  (inside height width a -> exists letters, letter_grid height width a = Ok letters)
  /\ ((exists x w k, In (x, w) a /\ k < String.length w
                     /\ ~ (fst (cell_of x k) < height
                           /\ snd (cell_of x k) < width)) ->
      letter_grid height width a = Raise IndexError).
Proof.
  unfold letter_grid. rewrite write_items_all. split.
  - intros I. apply (write_all_inside height width); [apply blank_shape|].
    intros cell c Hc. apply item_writes_In in Hc as (x & w & k & Hx & G & <-).
    apply (I x w k Hx). now apply get_some_lt in G.
  - intros (x & w & k & Hx & Hk & N).
    apply (write_all_outside height width); [apply blank_shape|].
    destruct (get_in_range w k Hk) as [c G].
    exists (cell_of x k), c. split; [|exact N].
    apply item_writes_In. exists x, w, k. auto.
Qed.

Lemma letter_grid_bounds_witness :
  letter_grid 2 3 [(Examples.left, "AXE"%string)] = Raise IndexError.
Proof.
  apply (proj2 (letter_grid_bounds 2 3 [(Examples.left, "AXE"%string)])).
  exists Examples.left, "AXE"%string, 2.
  split; [now left|]. split; [simpl; lia|]. vm_compute. lia.
Defined.

(** ** [print] *)

Lemma seq_nth_error n : forall s k, k < n -> nth_error (seq s n) k = Some (s + k).
Proof.
  induction n as [|n IH]; intros s [|k] H; simpl; try lia.
  - f_equal. lia.
  - rewrite IH by lia. f_equal. lia.
Qed.

Lemma print_row_ok structure letters i js : forall out,
  (forall j, In j js -> exists p, print_cell structure letters i j = Ok p) ->
  print_row structure letters i js out
  = (Ok tt, out ++ map (shown structure letters i) js ++ [newline]).
Proof.
  induction js as [|j js IH]; intros out H; [reflexivity|].
  simpl. destruct (H j (or_introl eq_refl)) as [p E].
  unfold shown at 1. rewrite E. rewrite IH by auto using in_cons.
  now rewrite <- app_assoc.
Qed.

Lemma print_rows_ok structure letters width rows : forall out,
  (forall i j, In i rows -> j < width ->
     exists p, print_cell structure letters i j = Ok p) ->
  print_rows structure letters width rows out
  = (Ok tt, out ++ picture structure letters width rows).
Proof.
  induction rows as [|i rows IH]; intros out H.
  - simpl. now rewrite app_nil_r.
  - simpl. rewrite print_row_ok.
    + rewrite IH by auto using in_cons. unfold picture. simpl.
      now rewrite <- !app_assoc.
    + intros j Hj. apply in_seq in Hj. apply H; [now left | lia].
Qed.

Lemma picture_nth_error structure letters width n : forall s i j,
  i < n -> j < width ->
  nth_error (picture structure letters width (seq s n)) (i * S width + j)
  = Some (shown structure letters (s + i) j).
Proof.
  unfold picture.
  induction n as [|n IH]; intros s i j Hi Hj; [lia|].
  cbn [seq flat_map]. destruct i as [|i].
  - simpl. rewrite <- app_assoc, nth_error_app1 by (now rewrite length_map, length_seq).
    rewrite nth_error_map, seq_nth_error by assumption. simpl.
    now rewrite Nat.add_0_r.
  - rewrite nth_error_app2
      by (rewrite length_app, length_map, length_seq; simpl; lia).
    rewrite length_app, length_map, length_seq. cbn [List.length].
    match goal with
    | |- nth_error _ ?n = _ => replace n with (i * S width + j) by nia
    end.
    rewrite IH by lia. do 2 f_equal. lia.
Qed.

Lemma picture_length structure letters width rows :
  List.length (picture structure letters width rows)
  = List.length rows * S width.
Proof.
  unfold picture. induction rows as [|i rows IH]; [reflexivity|].
  cbn [flat_map]. rewrite !length_app, length_map, length_seq, IH. simpl. lia.
Qed.

Lemma print_cell_ok h w structure letters i j :
  covers_grid h w structure -> shape h w letters -> i < h -> j < w ->
  exists p, print_cell structure letters i j = Ok p.
Proof.
  intros C [L F] Hi Hj. unfold print_cell.
  destruct (structure_get structure (i, j)) as [[|]|] eqn:E;
    [|eauto|destruct (C i j Hi Hj E)].
  unfold grid_get. simpl.
  destruct (nth_error letters i) as [row|] eqn:Er.
  - rewrite Forall_forall in F.
    assert (List.length row = w) as Lr by (apply F; eapply nth_error_In; eassumption).
    destruct (nth_error row j) as [[c|]|] eqn:Ec; eauto.
    apply nth_error_None in Ec. lia.
  - apply nth_error_None in Er. lia.
Qed.

Lemma letter_grid_shape h w a letters :
  letter_grid h w a = Ok letters -> shape h w letters.
Proof.
  unfold letter_grid. rewrite write_items_all. intros H.
  now destruct (write_all_ok h w _ _ _ (blank_shape h w) H).
Qed.

Lemma print_picture h w structure a letters :
  covers_grid h w structure -> letter_grid h w a = Ok letters ->
  print h w structure a = (Ok tt, picture structure letters w (seq 0 h)).
Proof.
  intros C H. unfold print. rewrite H. rewrite print_rows_ok; [reflexivity|].
  intros i j Hi Hj. apply in_seq in Hi.
  apply (print_cell_ok h w); auto; [now apply letter_grid_shape in H | lia].
Qed.

(** X19: when the structure covers the grid and every letter of the
    assignment falls inside it, [print] ends normally after [height] lines
    of [width] characters, each line closed by a newline, and a cell that
    the structure marks as closed shows as a full block. *)
Theorem print_layout (height width : nat) (structure : list (list bool))
    (a : assignment)
    (Hcovers : covers_grid height width structure)
    (Hinside : inside height width a) :
  exists out,
    print height width structure a = (Ok tt, out)
    /\ List.length out = height * S width
    /\ (forall i, i < height ->
          nth_error out (i * S width + width) = Some newline)
    /\ (forall i j, i < height -> j < width ->
          structure_get structure (i, j) = Some false ->
          nth_error out (i * S width + j) = Some Block).
Proof.
  assert (exists letters, letter_grid height width a = Ok letters) as [letters H].
  { unfold letter_grid. rewrite write_items_all.
    apply (write_all_inside height width); [apply blank_shape|].
    intros cell c Hc. apply item_writes_In in Hc as (x & w & k & Hx & G & <-).
    apply (Hinside x w k Hx). now apply get_some_lt in G. }
  exists (picture structure letters width (seq 0 height)).
  split; [now apply print_picture|].
  split; [now rewrite picture_length, length_seq|]. split.
  - intros i Hi. unfold picture.
    assert (forall n s i, i < n ->
              nth_error (flat_map (fun i => map (shown structure letters i)
                                               (seq 0 width) ++ [newline])
                                  (seq s n)) (i * S width + width)
              = Some newline) as N.
    { clear. induction n as [|n IH]; intros s i Hi; [lia|].
      cbn [seq flat_map]. destruct i as [|i].
      - simpl. rewrite <- app_assoc, nth_error_app2
          by (rewrite length_map, length_seq; lia).
        rewrite length_map, length_seq, Nat.sub_diag. reflexivity.
      - rewrite nth_error_app2
          by (rewrite length_app, length_map, length_seq; simpl; lia).
        rewrite length_app, length_map, length_seq. cbn [List.length].
        match goal with
        | |- nth_error _ ?n = _ => replace n with (i * S width + width) by nia
        end.
        apply IH. lia. }
    now apply N.
  - intros i j Hi Hj E.
    rewrite (picture_nth_error structure letters width height 0 i j Hi Hj).
    simpl. unfold shown, print_cell. now rewrite E.
Qed.

Lemma print_layout_witness :
  exists out,
    print 2 3 [[true; true; true]; [true; false; true]] Examples.arch_solution
    = (Ok tt, out)
    /\ List.length out = 8
    /\ nth_error out 5 = Some Block.
Proof.
  destruct (print_layout 2 3 [[true; true; true]; [true; false; true]]
              Examples.arch_solution) as (out & E & L & _ & B).
  - intros [|[|i]] [|[|[|j]]] Hi Hj; try lia; discriminate.
  - intros x w k Hx Hk.
    destruct Hx as [Hx|[Hx|[Hx|[]]]]; inversion Hx; subst; clear Hx;
      destruct k as [|[|[|k]]]; simpl in Hk; try lia; vm_compute; lia.
  - exists out. split; [exact E|]. split; [exact L|].
    apply (B 1 1); [lia | lia | reflexivity].
Defined.

(** X20: under the same conditions, when two words that meet on a cell
    carry the same letter there, every letter of an assigned word that
    lies on an open cell is printed at the place of that cell: line [i],
    column [j] for the cell [(i, j)]. *)
Theorem print_shows_words (height width : nat) (structure : list (list bool))
    (a : assignment) (x : variable) (word : string) (k : nat) (c : ascii)
    (Hcovers : covers_grid height width structure)
    (Hinside : inside height width a)
    (Hfit : words_fit a)
    (Hin : In (x, word) a) (Hk : String.get k word = Some c)
    (Hopen : structure_get structure (cell_of x k) = Some true) :
  exists out,
    print height width structure a = (Ok tt, out)
    /\ nth_error out (fst (cell_of x k) * S width + snd (cell_of x k))
       = Some (Char c).
Proof.
  assert (exists letters, letter_grid height width a = Ok letters) as [letters H].
  { unfold letter_grid. rewrite write_items_all.
    apply (write_all_inside height width); [apply blank_shape|].
    intros cell c' Hc. apply item_writes_In in Hc as (y & w & k' & Hy & G & <-).
    apply (Hinside y w k' Hy). now apply get_some_lt in G. }
  exists (picture structure letters width (seq 0 height)).
  split; [now apply print_picture|].
  destruct (Hinside x word k Hin (get_some_lt _ _ _ Hk)) as [Hi Hj].
  rewrite (picture_nth_error structure letters width height 0 _ _ Hi Hj).
  rewrite Nat.add_0_l. unfold shown, print_cell.
  rewrite <- (surjective_pairing (cell_of x k)).
  rewrite Hopen.
  assert (grid_get letters (cell_of x k) = Some (Some c)) as ->; [|reflexivity].
  pose proof H as H'. unfold letter_grid in H'. rewrite write_items_all in H'.
  destruct (write_all_ok height width _ _ _ (blank_shape height width) H')
    as (_ & _ & Put).
  apply Put.
  - intros c' Hc'. apply item_writes_In in Hc' as (y & wy & k' & Hy & Gy & Ec).
    symmetry. exact (Hfit x word y wy k k' c c' Hin Hy (eq_sym Ec) Hk Gy).
  - exists c. apply item_writes_In. exists x, word, k. auto.
Qed.

Lemma print_shows_words_witness :
  exists out,
    print 2 3 [[true; true; true]; [true; false; true]] Examples.arch_solution
    = (Ok tt, out)
    /\ nth_error out 2 = Some (Char "B"%char).
Proof.
  apply (print_shows_words 2 3 [[true; true; true]; [true; false; true]]
           Examples.arch_solution Examples.top "AXB"%string 2 "B"%char).
  - intros [|[|i]] [|[|[|j]]] Hi Hj; try lia; discriminate.
  - intros x w k Hx Hk.
    destruct Hx as [Hx|[Hx|[Hx|[]]]]; inversion Hx; subst; clear Hx;
      destruct k as [|[|[|k]]]; simpl in Hk; try lia; vm_compute; lia.
  - intros x wx y wy k k' c c' Hx Hy E Gx Gy.
    destruct Hx as [Hx|[Hx|[Hx|[]]]]; inversion Hx; subst; clear Hx;
      destruct Hy as [Hy|[Hy|[Hy|[]]]]; inversion Hy; subst; clear Hy;
      destruct k as [|[|[|k]]]; simpl in Gx; try discriminate;
      destruct k' as [|[|[|k']]]; simpl in Gy; try discriminate;
      vm_compute in E; try discriminate; congruence.
  - right. left. reflexivity.
  - reflexivity.
  - reflexivity.
Defined.

(** X21: [print] builds the whole grid before it writes: when a letter of
    the assignment falls outside the grid, it raises [IndexError] and
    nothing has been written to the terminal. *)
Theorem print_nothing_on_overflow (height width : nat)
    (structure : list (list bool)) (a : assignment)
    (x : variable) (word : string) (k : nat)
    (Hin : In (x, word) a) (Hk : k < String.length word)
    (Hout : ~ (fst (cell_of x k) < height /\ snd (cell_of x k) < width)) :
  print height width structure a = (Raise IndexError, []).
Proof.
  unfold print, letter_grid. rewrite write_items_all.
  rewrite (write_all_outside height width); [reflexivity | apply blank_shape|].
  destruct (get_in_range word k Hk) as [c G].
  exists (cell_of x k), c. split; [|exact Hout].
  apply item_writes_In. exists x, word, k. auto.
Qed.

Lemma print_nothing_on_overflow_witness :
  print 2 3 [[true; true; true]; [true; false; true]]
    [(Examples.left, "AXE"%string)] = (Raise IndexError, []).
Proof.
  apply (print_nothing_on_overflow 2 3 _ _ Examples.left "AXE"%string 2).
  - now left.
  - simpl. lia.
  - vm_compute. lia.
Defined.

(** ** [backtrack] extends the assignment it is given *)

Section Extends.
Variable cw : Crossword.

Lemma dict_set_extends (a : assignment) var value x w :
  dict_mem var a = false -> dict_get x a = Some w ->
  dict_get x (dict_set var value a) = Some w.
Proof.
  intros Hm E. rewrite dict_get_set_other; [exact E|].
  intros ->. apply dict_mem_false in Hm. congruence.
Qed.

Lemma try_values_extends recur var a values :
  (forall a' d' r d'',
      recur a' d' = (Ok (Some r), d'') ->
      forall x w, dict_get x a' = Some w -> dict_get x r = Some w) ->
  dict_mem var a = false ->
  forall d r d',
    try_values cw recur var a values d = (Ok (Some r), d') ->
    forall x w, dict_get x a = Some w -> dict_get x r = Some w.
Proof.
  intros Hrec Hm. induction values as [|value rest IH]; intros d r d' H x w E.
  - simpl in H. discriminate.
  - rewrite try_values_step in H.
    destruct (consistent cw (dict_set var value a)) as [[|]| |];
      try discriminate; [|eapply IH; eassumption].
    destruct (ac3 cw _ d) as [[[|]| |] d1]; try discriminate;
      [|eapply IH; eassumption].
    eapply Hrec; [exact H|]. now apply dict_set_extends.
Qed.

Lemma backtrack_rec_extends fuel : forall a d r d',
  backtrack_rec cw fuel a d = (Ok (Some r), d') ->
  forall x w, dict_get x a = Some w -> dict_get x r = Some w.
Proof.
  induction fuel as [|fuel IH]; intros a d r d' H x w E; [discriminate|].
  rewrite backtrack_rec_step in H.
  destruct (assignment_complete cw a); [inversion H; now subst|].
  destruct (select_unassigned_variable cw a d) as [[var|]| |] eqn:S;
    try discriminate.
  destruct (order_domain_values cw (Some var) a d) as [values| |];
    try discriminate.
  destruct (select_unassigned_variable_inv cw d a _ S) as (_ & Hm & _).
  refine (try_values_extends (backtrack_rec cw fuel) var a values _ Hm
            d r d' H x w E).
  intros a' d1 r1 d2 H1. exact (IH a' d1 r1 d2 H1).
Qed.
End Extends.

(** X22: the dictionary that a direct call of [backtrack] returns keeps
    every word of the assignment the call was given; when that assignment
    passes [consistent], the dictionary returned is complete and passes
    [consistent] as well. *)
Theorem backtrack_extends (cw : Crossword) (a r : assignment)
    (d d' : domains)
    (H : backtrack cw a d = (Ok (Some r), d')) :
  (forall x w, dict_get x a = Some w -> dict_get x r = Some w)
  /\ (consistent cw a = Ok true ->
      assignment_complete cw r = true /\ consistent cw r = Ok true).
Proof.
  split.
  - exact (backtrack_rec_extends cw _ a d r d' H).
  - intros C. exact (backtrack_rec_checked cw _ a d r d' C H).
Qed.

Lemma backtrack_extends_witness :
  assignment_complete Examples.arch
    [(Examples.right, "BX"%string); (Examples.left, "AX"%string);
     (Examples.top, "AXB"%string)] = true
  /\ consistent Examples.arch
       [(Examples.right, "BX"%string); (Examples.left, "AX"%string);
        (Examples.top, "AXB"%string)] = Ok true.
Proof.
  refine (proj2 (backtrack_extends Examples.arch
                   [(Examples.right, "BX"%string)] _
                   (node_filtered Examples.arch) (node_filtered Examples.arch)
                   _) _).
  - vm_compute. reflexivity.
  - vm_compute. reflexivity.
Defined.

Lemma solve_only_shrinks_witness :
  incl [] (words Examples.cat_dog).
Proof.
  refine (proj2 (solve_only_shrinks Examples.cat_dog) Examples.slot_A [] _).
  vm_compute. reflexivity.
Defined.
